(** * PoseNet API: the keypoint-to-decision pipeline of [src/index.js]

    The repository is one Express handler.  It decodes an uploaded image,
    asks a pretrained pose model for keypoints, keeps the nose and the two
    wrists, and answers which wrist is closer to the nose and whether the
    pose is accepted.  Numbers are JavaScript Numbers, that is IEEE 754
    binary64 values; they are modelled here with the Standard Library's
    executable specification of binary floating point ([SpecFloat]), so every
    definition below can be evaluated on concrete inputs. *)

From Stdlib Require Import ZArith Bool List Lia.
From Stdlib Require Import SpecFloat.
From Stdlib Require PrimFloat FloatOps.
From stdpp Require Import gmap strings.

Local Open Scope Z_scope.

(** ** JavaScript Numbers and the built-ins the handler calls *)

Module JS.

Definition prec : Z := 53.
Definition emax : Z := 1024.

(** A Number: zero, infinity, NaN or a finite [m * 2^e], each with a sign. *)
Abbreviation number := spec_float (only parsing).

Definition Infinity : number := S754_infinity false.

(** An integer literal such as [550] or [2]. *)
Definition of_Z (z : Z) : number := binary_normalize prec emax z 0 false.

Definition add : number -> number -> number := SFadd prec emax.
Definition sub : number -> number -> number := SFsub prec emax.
Definition mul : number -> number -> number := SFmul prec emax.
Definition div : number -> number -> number := SFdiv prec emax.

(** [Math.sqrt]: the correctly rounded square root, as engines compute it. *)
Definition Math_sqrt : number -> number := SFsqrt prec emax.

(** [v ** 2].  Number::exponentiate fixes the special cases (NaN for NaN,
    +Infinity for either infinity, +0 for either zero) and leaves the
    precision of the rest to the engine; for the exponent 2 engines return
    the correctly rounded product of the base with itself, which has the
    same special cases. *)
Definition pow2 (v : number) : number := mul v v.

(** [a < b] (false when either side is NaN). *)
Definition lt (a b : number) : bool := SFltb a b.

(** [a >= b]: IsLessThan(a, b) must be neither true nor undefined. *)
Definition ge (a b : number) : bool :=
  match SFcompare a b with
  | Some Lt | None => false
  | Some Eq | Some Gt => true
  end.

(** [a === b] on Numbers (Number::equal): NaN differs from everything,
    and the two zeros are equal. *)
Definition strict_equal (a b : number) : bool := SFeqb a b.

Definition is_nan (v : number) : bool :=
  match v with S754_nan => true | _ => false end.

Definition is_zero_signed (s : bool) (v : number) : bool :=
  match v with S754_zero s' => Bool.eqb s s' | _ => false end.

(** [Math.min(...args)]: start from +Infinity; a NaN argument gives NaN;
    -0 replaces +0; a strictly smaller argument replaces the lowest. *)
Fixpoint min_from (lowest : number) (args : list number) : number :=
  match args with
  | nil => lowest
  | n :: rest =>
      if is_nan n then S754_nan
      else if is_zero_signed true n && is_zero_signed false lowest
           then min_from n rest
      else if lt n lowest then min_from n rest
      else min_from lowest rest
  end.

Definition Math_min (args : list number) : number := min_from Infinity args.

(** [Math.max(...args)]: start from -Infinity; a NaN argument gives NaN;
    +0 replaces -0; a strictly larger argument replaces the highest. *)
Fixpoint max_from (highest : number) (args : list number) : number :=
  match args with
  | nil => highest
  | n :: rest =>
      if is_nan n then S754_nan
      else if is_zero_signed false n && is_zero_signed true highest
           then max_from n rest
      else if lt highest n then max_from n rest
      else max_from highest rest
  end.

Definition Math_max (args : list number) : number :=
  max_from (S754_infinity true) args.

(** *** [toFixed(2)] and [parseFloat]

    The string [toFixed(2)] returns is kept by its content: which of the
    four shapes it has and, for a decimal, its sign and the integer [n]
    whose digits it prints with the point before the last two. *)
Inductive fixed_string : Type :=
| FS_NaN
| FS_Infinity (neg : bool)
| FS_decimal (neg : bool) (n : Z)
| FS_toString (v : number).

(** The integer [n] for which [n / 100 - m * 2^e] is closest to zero, the
    larger one when two are equally close. *)
Definition nearest_hundredths (m : positive) (e : Z) : Z :=
  if 0 <=? e then 100 * Z.pos m * 2 ^ e
  else (200 * Z.pos m + 2 ^ (- e)) / 2 ^ (1 - e).

(** [10^21 <= m * 2^e]. *)
Definition at_least_1e21 (m : positive) (e : Z) : bool :=
  if 0 <=? e then 10 ^ 21 <=? Z.pos m * 2 ^ e
  else 10 ^ 21 <=? Z.pos m / 2 ^ (- e).

(** [v.toFixed(2)]: a value that is not finite prints as Number::toString
    does; a magnitude of at least 10^21 also; otherwise the sign (none for
    a zero) and the nearest multiple of 1/100. *)
Definition toFixed2 (v : number) : fixed_string :=
  match v with
  | S754_nan => FS_NaN
  | S754_infinity s => FS_Infinity s
  | S754_zero _ => FS_decimal false 0
  | S754_finite s m e =>
      if at_least_1e21 m e then FS_toString v
      else FS_decimal s (nearest_hundredths m e)
  end.

(** [parseFloat] of such a string: the Number nearest to the decimal it
    reads (ties to even; the division below is that rounding of the
    rational [n / 100], whatever the size of [n]).  Number::toString
    prints digits that read back as the same Number. *)
Definition parseFloat (s : fixed_string) : number :=
  match s with
  | FS_NaN => S754_nan
  | FS_Infinity neg => S754_infinity neg
  | FS_decimal neg Z0 => S754_zero neg
  | FS_decimal neg (Zpos n) =>
      SFdiv prec emax (S754_finite neg n 0) (S754_finite false 100 0)
  | FS_decimal _ (Zneg _) => S754_nan
  | FS_toString v => v
  end.

End JS.

Declare Scope js_scope.
Delimit Scope js_scope with js.
Infix "+" := JS.add : js_scope.
Infix "-" := JS.sub : js_scope.
Infix "*" := JS.mul : js_scope.
Infix "/" := JS.div : js_scope.
Infix ">=" := JS.ge : js_scope.
Infix "===" := JS.strict_equal (at level 70) : js_scope.

(** ** Data model *)

(** [point.position]: image pixel coordinates. *)
Record Vector2D : Type := { x : JS.number; y : JS.number }.

(** One entry of [pose.keypoints], as the pose model yields it. *)
Record Keypoint : Type :=
  { score : JS.number; part : string; position : Vector2D }.

(** The object sent by [res.json(result)]. *)
Record Judgment : Type :=
  { closestHand : string; distance : JS.number; accepted : bool }.

(** ** The decision pipeline *)

(** [euclideanDistance(a, b)], lines 28-30. *)
Definition euclideanDistance (a b : Vector2D) : JS.number :=
  JS.Math_sqrt (JS.pow2 (x a - x b) + JS.pow2 (y a - y b))%js.

(** The keypoint filter, lines 51-56: [kp] starts empty and every point
    whose part is one of the three names overwrites [kp[point.part]]. *)
Definition tracked_parts : list string :=
  "nose"%string :: "leftWrist"%string :: "rightWrist"%string :: nil.

Definition includes (names : list string) (name : string) : bool :=
  existsb (String.eqb name) names.

Definition collect_step (kp : gmap string Vector2D) (point : Keypoint)
  : gmap string Vector2D :=
  if includes tracked_parts (part point)
  then <[part point := position point]> kp
  else kp.

Definition collect (keypoints : list Keypoint) : gmap string Vector2D :=
  fold_left collect_step keypoints ∅.

(** [kp.leftWrist ? euclideanDistance(kp.leftWrist, kp.nose) : Infinity]
    and its twin, lines 62-67.  A position is an object, hence truthy
    exactly when the entry is there. *)
Definition wristDistance (wrist : option Vector2D) (nose : Vector2D)
  : JS.number :=
  match wrist with
  | Some w => euclideanDistance w nose
  | None => JS.Infinity
  end.

Definition distLeft (kp : gmap string Vector2D) (nose : Vector2D) : JS.number :=
  wristDistance (kp !! "leftWrist"%string) nose.

Definition distRight (kp : gmap string Vector2D) (nose : Vector2D) : JS.number :=
  wristDistance (kp !! "rightWrist"%string) nose.

(** Line 68. *)
Definition minDist (kp : gmap string Vector2D) (nose : Vector2D) : JS.number :=
  JS.Math_min (distLeft kp nose :: distRight kp nose :: nil).

(** Line 69. *)
Definition closestHandOf (minDist distLeft : JS.number) : string :=
  if (minDist === distLeft)%js then "leftWrist"%string else "rightWrist"%string.

(** Lines 71-73. *)
Definition THRESHOLD_DISTANCE : JS.number := JS.of_Z 550.

Definition ACCEPTANCE_THRESHOLD : JS.number := (JS.of_Z 1 / JS.of_Z 10)%js.

Definition confidenceDecimal (minDist : JS.number) : JS.number :=
  JS.Math_max (JS.of_Z 0 :: (JS.of_Z 1 - minDist / THRESHOLD_DISTANCE)%js :: nil).

(** [parseFloat(minDist.toFixed(2))], line 77. *)
Definition reportedDistance (minDist : JS.number) : JS.number :=
  JS.parseFloat (JS.toFixed2 minDist).

(** [confidenceDecimal >= ACCEPTANCE_THRESHOLD], line 78. *)
Definition acceptedOf (minDist : JS.number) : bool :=
  (confidenceDecimal minDist >= ACCEPTANCE_THRESHOLD)%js.

(** The comparison of line 78 by itself, on any confidence:
    [confidence >= ACCEPTANCE_THRESHOLD]. *)
Definition meetsThreshold (confidence : JS.number) : bool :=
  (confidence >= ACCEPTANCE_THRESHOLD)%js.

(** The one way the pipeline refuses its input (line 58). *)
Inductive DecisionError : Type := MissingAnchorError.

(** Lines 58-79: from the filtered keypoints to the result object. *)
Definition decide (kp : gmap string Vector2D) : DecisionError + Judgment :=
  match kp !! "nose"%string with
  | None => inl MissingAnchorError
  | Some nose =>
      let minDist := minDist kp nose in
      inr {| closestHand := closestHandOf minDist (distLeft kp nose);
             distance := reportedDistance minDist;
             accepted := acceptedOf minDist |}
  end.

(** ** The HTTP handler of [POST /pose] *)

(** What [res.status(..).json(..)] is given. *)
Inductive Body : Type :=
| ErrorBody (error : string)
| JudgmentBody (result : Judgment).

Record Response : Type := { status : Z; body : Body }.

(** Lines 58-60 and 81: how the outcome of the pipeline is answered. *)
Definition respond (outcome : DecisionError + Judgment) : Response :=
  match outcome with
  | inl MissingAnchorError =>
      {| status := 400; body := ErrorBody "Nose not detected" |}
  | inr result => {| status := 200; body := JudgmentBody result |}
  end.

Section Handler.

(** The collaborators are outside the repository: the uploaded bytes, the
    decoded image, the canvas, the loaded network and whatever they throw
    are opaque, and each call either throws or returns.  [modelPromise] is
    what awaiting the promise of lines 11-21 gives, [drawOnCanvas] the three
    canvas calls of lines 41-43. *)
Variables Buffer Image Canvas Net Exn : Type.
Variable modelPromise : Exn + Net.
Variable loadImage : Buffer -> Exn + Image.
Variable drawOnCanvas : Image -> Exn + Canvas.
Variable estimateSinglePose : Net -> Canvas -> Exn + list Keypoint.

(** What the handler does to the world outside its own locals. *)
Inductive Call : Type :=
| AwaitModel
| LoadImage (buffer : Buffer)
| DrawCanvas (image : Image)
| EstimatePose (net : Net) (canvas : Canvas)
| ConsoleError (error : Exn).

(** A computation that may throw and that appends to the log of calls. *)
Definition Async (A : Type) : Type := list Call -> (Exn + A) * list Call.

Definition ret {A : Type} (a : A) : Async A := fun log => (inr a, log).

Definition bind {A B : Type} (c : Async A) (k : A -> Async B) : Async B :=
  fun log =>
    match c log with
    | (inl error, log') => (inl error, log')
    | (inr a, log') => k a log'
    end.

Definition call {A : Type} (what : Call) (outcome : Exn + A) : Async A :=
  fun log => (outcome, log ++ what :: nil).

Definition try_catch {A : Type} (c : Async A) (handler : Exn -> Async A)
  : Async A :=
  fun log =>
    match c log with
    | (inl error, log') => handler error log'
    | (inr a, log') => (inr a, log')
    end.

Notation "'let!' v ':=' c 'in' k" := (bind c (fun v => k))
  (at level 10, v name, c at level 100, k at level 200).

(** Lines 50-81: everything after the pose estimate. *)
Definition judge (keypoints : list Keypoint) : Async Response :=
  ret (respond (decide (collect keypoints))).

(** Lines 34-86; [file] is [req.file], its content [req.file.buffer]. *)
Definition pose_handler (file : option Buffer) : Async Response :=
  try_catch
    match file with
    | None => ret {| status := 400; body := ErrorBody "No image uploaded" |}
    | Some buffer =>
        let! net := call AwaitModel modelPromise in
        let! image := call (LoadImage buffer) (loadImage buffer) in
        let! canvas := call (DrawCanvas image) (drawOnCanvas image) in
        let! keypoints := call (EstimatePose net canvas)
                                (estimateSinglePose net canvas) in
        judge keypoints
    end
    (fun error =>
       let! logged := call (ConsoleError error) (inr tt) in
       ret {| status := 500; body := ErrorBody "Pose estimation failed" |}).

End Handler.

Arguments AwaitModel {Buffer Image Canvas Net Exn}.
Arguments LoadImage {Buffer Image Canvas Net Exn} buffer.
Arguments DrawCanvas {Buffer Image Canvas Net Exn} image.
Arguments EstimatePose {Buffer Image Canvas Net Exn} net canvas.
Arguments ConsoleError {Buffer Image Canvas Net Exn} error.
Arguments judge {Buffer Image Canvas Net Exn} keypoints _.
Arguments pose_handler {Buffer Image Canvas Net Exn}
  modelPromise loadImage drawOnCanvas estimateSinglePose file _.

(** ** Predicates on Numbers and keypoint sets *)

Definition not_nan (v : JS.number) : Prop := JS.is_nan v = false.

(** A zero or a finite non-zero Number: what a pixel coordinate is. *)
Definition is_finite (v : JS.number) : bool :=
  match v with
  | S754_zero _ | S754_finite _ _ _ => true
  | S754_infinity _ | S754_nan => false
  end.

Definition finite_position (p : Vector2D) : bool :=
  is_finite (x p) && is_finite (y p).

(** Every tracked keypoint that is present has finite coordinates. *)
Definition finite_positions (kp : gmap string Vector2D) : bool :=
  forallb (fun name =>
             match kp !! name with
             | Some p => finite_position p
             | None => true
             end)
          tracked_parts.

(** A Number that is not NaN and carries the sign [s]. *)
Inductive signed_as (s : bool) : JS.number -> Prop :=
| signed_zero : signed_as s (S754_zero s)
| signed_infinity : signed_as s (S754_infinity s)
| signed_finite m e : signed_as s (S754_finite s m e).



(** ** What the rounding of SpecFloat computes

    The operations of [SpecFloat] hand an integer mantissa, an exponent and
    the place of the discarded part to [binary_round_aux], which shifts the
    mantissa to the exponent of the result and rounds it to nearest, ties to
    even.  The definitions below name the steps, so that its result can be
    stated and the order of two results compared. *)

(** The exact value is [X / W] units of the last place: the record holds
    its integer part and says whether the rest is zero, below a half, a
    half, or above a half. *)
Definition located (X W : Z) (mrs : shr_record) : Prop :=
  match shr_r mrs, shr_s mrs with
  | false, false => X = shr_m mrs * W
  | false, true => shr_m mrs * W < X /\ 2 * X < (2 * shr_m mrs + 1) * W
  | true, false => 2 * X = (2 * shr_m mrs + 1) * W
  | true, true => (2 * shr_m mrs + 1) * W < 2 * X /\ X < (shr_m mrs + 1) * W
  end.

(** The position of a record on the grid of quarter units: four times the
    integer part, plus the round bit twice, plus the sticky bit. *)
Definition code_of (mrs : shr_record) : Z :=
  4 * shr_m mrs + (if shr_r mrs then 2 else 0) + (if shr_s mrs then 1 else 0).

(** The mantissa after rounding to nearest, ties to even. *)
Definition rounded_mantissa (mrs : shr_record) : Z :=
  round_nearest_even (shr_m mrs) (loc_of_shr_record mrs).

(** [b] is [a] shifted right by [k] places. *)
Definition shifted (k : Z) (a b : shr_record) : Prop :=
  0 <= shr_m a ->
  0 <= shr_m b
  /\ shr_m b = shr_m a / 2 ^ k
  /\ forall X W, 0 < W -> located X W a -> located X (2 ^ k * W) b.

(** The exponent a value with mantissa [m] at exponent [e] is rounded at. *)
Definition target_exponent (m e : Z) : Z := fexp JS.prec JS.emax (Zdigits2 m + e).

(** The input of [binary_round_aux] has at least the digits of the result. *)
Definition round_ready (m e : Z) : Prop :=
  0 <= m /\ e <= target_exponent m e.

(** The record after the shift to the target exponent. *)
Definition shifted_record (m e : Z) (l : location) : shr_record :=
  fst (shr (shr_record_of_loc m l) e (target_exponent m e - e)).

(** The Number with sign [s] for a rounded mantissa [m2 <= 2^53] at
    exponent [t]: a mantissa of [2^53] is renormalised, an exponent above
    971 overflows to infinity. *)
Definition rounded (s : bool) (m2 t : Z) : JS.number :=
  match m2 with
  | Z0 => S754_zero s
  | Zpos q =>
      if m2 <? 2 ^ 53
      then if t <=? 971 then S754_finite s q t else S754_infinity s
      else if t + 1 <=? 971 then S754_finite s 4503599627370496 (t + 1)
           else S754_infinity s
  | Zneg _ => S754_nan
  end.

(** The Number 1. *)
Definition one : JS.number := S754_finite false 4503599627370496 (-52).

(** The signed mantissa and the exponent of a zero or a finite Number. *)
Definition signed_mantissa (v : JS.number) : Z :=
  match v with
  | S754_finite s m _ => cond_Zopp s (Z.pos m)
  | _ => 0
  end.

Definition exponent_of (v : JS.number) : Z :=
  match v with
  | S754_finite _ _ e => e
  | _ => 0
  end.

(** [1 - minDist / THRESHOLD_DISTANCE], the second argument of [Math.max]
    in [confidenceDecimal]. *)
Definition rawConfidence (minDist : JS.number) : JS.number :=
  (JS.of_Z 1 - minDist / THRESHOLD_DISTANCE)%js.

(** ** Sample inputs *)

(** A position with integer coordinates. *)
Definition at_pixel (a b : Z) : Vector2D := {| x := JS.of_Z a; y := JS.of_Z b |}.

Definition keypoint_set (nose leftWrist rightWrist : option Vector2D)
  : gmap string Vector2D :=
  let put name v kp :=
    match v with Some p => <[name := p]> kp | None => kp end in
  put "nose"%string nose
    (put "leftWrist"%string leftWrist (put "rightWrist"%string rightWrist ∅)).

(** Both wrists at distance 10 from the nose. *)
Definition tie_sample : gmap string Vector2D :=
  keypoint_set (Some (at_pixel 0 0)) (Some (at_pixel 10 0)) (Some (at_pixel 0 10)).

(** Only the nose. *)
Definition nose_only_sample : gmap string Vector2D :=
  keypoint_set (Some (at_pixel 0 0)) None None.

(** Only a left wrist. *)
Definition no_nose_sample : gmap string Vector2D :=
  keypoint_set None (Some (at_pixel 120 100)) None.

(** One wrist, 20 pixels from the nose. *)
Definition near_sample : gmap string Vector2D :=
  keypoint_set (Some (at_pixel 100 100)) (Some (at_pixel 120 100)) None.

(** One wrist, 495 pixels from the nose. *)
Definition boundary_sample : gmap string Vector2D :=
  keypoint_set (Some (at_pixel 0 0)) (Some (at_pixel 495 0)) None.

(** One wrist, 600 pixels from the nose. *)
Definition far_sample : gmap string Vector2D :=
  keypoint_set (Some (at_pixel 0 0)) None (Some (at_pixel 0 600)).

(** The double just below 495. *)
Definition below_495 : JS.number := S754_finite false 8708132091985919 (-44).

(** The confidence at distance 495: the quotient 495 / 550 rounds to the
    double nearest 0.9, and 1 minus that double is two units in the last
    place below the double nearest 0.1. *)
Definition confidence_at_495 : JS.number := S754_finite false 7205759403792792 (-56).

(** The confidence at the double just below 495: six units in the last
    place above the double nearest 0.1. *)
Definition confidence_below_495 : JS.number :=
  S754_finite false 7205759403792800 (-56).

(** Two outputs of the pose model that differ in scores only. *)
Definition scored_sample (s : Z) : list Keypoint :=
  {| score := JS.of_Z s; part := "nose"; position := at_pixel 100 100 |}
  :: {| score := JS.of_Z s; part := "leftEye"; position := at_pixel 90 95 |}
  :: {| score := JS.of_Z (s + 1); part := "leftWrist"; position := at_pixel 120 100 |}
  :: nil.

(** Two keypoints that name the same part at the same position, whatever
    their scores. *)
Definition same_landmark (p q : Keypoint) : Prop :=
  part p = part q /\ position p = position q.

(** ** Notions used to state further properties *)

(** The position of the last keypoint of the list whose part is [name]. *)
Fixpoint last_named (name : string) (keypoints : list Keypoint)
  : option Vector2D :=
  match keypoints with
  | nil => None
  | point :: rest =>
      match last_named name rest with
      | Some p => Some p
      | None =>
          if String.eqb (part point) name then Some (position point) else None
      end
  end.

(** NaN, or a Number whose sign bit is clear. *)
Definition nan_or_nonneg (v : JS.number) : Prop :=
  v = S754_nan \/ signed_as false v.

(** The keypoint set with the two wrists exchanged. *)
Definition swapWrists (kp : gmap string Vector2D) : gmap string Vector2D :=
  keypoint_set (kp !! "nose"%string) (kp !! "rightWrist"%string)
               (kp !! "leftWrist"%string).

(** 1e21, the least magnitude that [toFixed] prints as [toString] does. *)
Definition sextillion : JS.number := S754_finite false 7629394531250000 17.

(** The output of [scored_sample] with its first two keypoints exchanged. *)
Definition reordered_sample (s : Z) : list Keypoint :=
  {| score := JS.of_Z s; part := "leftEye"; position := at_pixel 90 95 |}
  :: {| score := JS.of_Z s; part := "nose"; position := at_pixel 100 100 |}
  :: {| score := JS.of_Z (s + 1); part := "leftWrist"; position := at_pixel 120 100 |}
  :: nil.

(** The Judgment of [near_sample]. *)
Definition near_judgment : Judgment :=
  {| closestHand := "leftWrist"; distance := JS.of_Z 20; accepted := true |}.

(** The Judgment of [far_sample]. *)
Definition far_judgment : Judgment :=
  {| closestHand := "rightWrist"; distance := JS.of_Z 600; accepted := false |}.

(** Collaborators for a sample run of the handler: uploads and images are
    [unit], errors are strings, the model loads, the canvas draws, the
    estimator yields [scored_sample 1], and the decoder fails on demand. *)
Definition sample_model : string + unit := inr tt.

Definition sample_decoder (readable : bool) : unit -> string + unit :=
  fun _ => if readable then inr tt else inl "not an image"%string.

Definition sample_canvas : unit -> string + unit := fun _ => inr tt.

Definition sample_estimator : unit -> unit -> string + list Keypoint :=
  fun _ _ => inr (scored_sample 1).

(** The calls of a run in which every collaborator returns. *)
Definition estimated_calls : list (Call unit unit unit unit string) :=
  AwaitModel :: LoadImage tt :: DrawCanvas tt :: EstimatePose tt tt :: nil.

(** The calls of a run in which the upload cannot be decoded. *)
Definition undecoded_calls : list (Call unit unit unit unit string) :=
  AwaitModel :: LoadImage tt :: ConsoleError "not an image"%string :: nil.

(** * Verification *)

(** ** The constants are the doubles the literals denote *)

Module Literals.
Import PrimFloat.

Example THRESHOLD_DISTANCE_literal :
THRESHOLD_DISTANCE = FloatOps.Prim2SF 550%float.
Proof. vm_compute. reflexivity. Qed.

Example ACCEPTANCE_THRESHOLD_literal :
ACCEPTANCE_THRESHOLD = FloatOps.Prim2SF 0x1.999999999999ap-4%float.
Proof. vm_compute. reflexivity. Qed.

Example below_495_literal :
below_495 = FloatOps.Prim2SF 0x1.eefffffffffffp+8%float
/\ SFpred JS.prec JS.emax (JS.of_Z 495) = below_495.
Proof. split; vm_compute; reflexivity. Qed.

(** 12.3456 is reported as 12.35. *)
Example reportedDistance_rounds :
reportedDistance (FloatOps.Prim2SF 0x1.8b0f27bb2fec5p+3%float)
= FloatOps.Prim2SF 0x1.8b33333333333p+3%float.
Proof. vm_compute. reflexivity. Qed.

End Literals.

(** ** The pipeline on the sample inputs *)

Example decide_near_sample :
  decide near_sample
  = inr {| closestHand := "leftWrist"; distance := JS.of_Z 20; accepted := true |}.
Proof. vm_compute. reflexivity. Qed.

Example decide_far_sample :
  decide far_sample
  = inr {| closestHand := "rightWrist"; distance := JS.of_Z 600; accepted := false |}.
Proof. vm_compute. reflexivity. Qed.

(** Rounding first would change the outcome: the double just below 495 is
    accepted, and it is reported as 495, which is not. *)
Example rounding_first_would_differ :
  acceptedOf below_495 = true
  /\ reportedDistance below_495 = JS.of_Z 495
  /\ acceptedOf (reportedDistance below_495) = false.
Proof. vm_compute. auto. Qed.

(** ** Rounding never yields NaN and keeps the sign *)

Section Rounding.
Variables prec emax : Z.

Lemma iter_pos_invariant {A : Type} (f : A -> A) (P : A -> Prop) :
  (forall a, P a -> P (f a)) -> forall n a, P a -> P (SpecFloat.iter_pos f n a).
Proof.
  intros Hf. induction n as [n IH|n IH|]; intros a Ha; simpl; auto.
Qed.

Lemma shr_1_nonneg mrs : 0 <= shr_m mrs -> 0 <= shr_m (shr_1 mrs).
Proof.
  destruct mrs as [m r s]. simpl. intros Hm.
  destruct m as [|[p|p|]|p]; simpl; lia.
Qed.

Lemma shr_nonneg mrs e n : 0 <= shr_m mrs -> 0 <= shr_m (fst (shr mrs e n)).
Proof.
  intros Hm. destruct n as [|p|p]; simpl; auto.
  apply iter_pos_invariant; auto using shr_1_nonneg.
Qed.

Lemma shr_record_of_loc_m m l : shr_m (shr_record_of_loc m l) = m.
Proof. destruct l as [|[]]; reflexivity. Qed.

Lemma shr_fexp_nonneg m e l :
  0 <= m -> 0 <= shr_m (fst (shr_fexp prec emax m e l)).
Proof.
  intros Hm. unfold shr_fexp. apply shr_nonneg.
  rewrite shr_record_of_loc_m. exact Hm.
Qed.

Lemma round_nearest_even_nonneg m l : 0 <= m -> 0 <= round_nearest_even m l.
Proof.
  intros Hm. destruct l as [|[]]; simpl; try lia.
  destruct (Z.even m); lia.
Qed.

Lemma binary_round_aux_signed s m e l :
  0 <= m -> signed_as s (binary_round_aux prec emax s m e l).
Proof.
  intros Hm. unfold binary_round_aux.
  pose proof (shr_fexp_nonneg m e l Hm) as H1.
  destruct (shr_fexp prec emax m e l) as [mrs' e'] eqn:E1. simpl in H1.
  pose proof (shr_fexp_nonneg (round_nearest_even (shr_m mrs') (loc_of_shr_record mrs'))
                e' loc_Exact (round_nearest_even_nonneg _ _ H1)) as H2.
  destruct (shr_fexp prec emax _ e' loc_Exact) as [mrs'' e''] eqn:E2. simpl in H2.
  destruct (shr_m mrs'') as [|p|p]; try lia.
  - constructor.
  - destruct (e'' <=? emax - prec); constructor.
Qed.

Lemma binary_round_signed s m e : signed_as s (binary_round prec emax s m e).
Proof.
  unfold binary_round.
  destruct (shl_align m e _) as [mz ez].
  apply binary_round_aux_signed. lia.
Qed.
End Rounding.

(** ** The arithmetic of [euclideanDistance] on finite coordinates *)

Section Ops.

Lemma signed_as_not_nan s v : signed_as s v -> not_nan v.
Proof. destruct 1; reflexivity. Qed.

Lemma binary_normalize_not_nan m e sz :
  not_nan (binary_normalize JS.prec JS.emax m e sz).
Proof.
  destruct m as [|p|p]; simpl; [reflexivity| |];
    eapply signed_as_not_nan, binary_round_signed.
Qed.

Lemma sub_finite_not_nan a b :
  is_finite a = true -> is_finite b = true -> not_nan (JS.sub a b).
Proof.
  destruct a as [sa|sa| |sa ma ea], b as [sb|sb| |sb mb eb]; try discriminate;
    intros _ _; unfold JS.sub, SFsub.
  - destruct sa, sb; reflexivity.
  - reflexivity.
  - reflexivity.
  - apply binary_normalize_not_nan.
Qed.

Lemma pow2_nonneg v : not_nan v -> signed_as false (JS.pow2 v).
Proof.
  destruct v as [s|s| |s m e]; try discriminate; intros _;
    unfold JS.pow2, JS.mul, SFmul.
  - destruct s; constructor.
  - destruct s; constructor.
  - replace (xorb s s) with false by (destruct s; reflexivity).
    apply binary_round_aux_signed. lia.
Qed.

Lemma add_nonneg a b :
  signed_as false a -> signed_as false b -> signed_as false (JS.add a b).
Proof.
  intros [| |ma ea] [| |mb eb]; unfold JS.add, SFadd; try constructor.
  destruct (shl_align ma ea _) as [ma' ea'], (shl_align mb eb _) as [mb' eb'].
  simpl. apply binary_round_signed.
Qed.

Lemma sqrt_nonneg v : signed_as false v -> signed_as false (JS.Math_sqrt v).
Proof.
  intros [| |m e]; unfold JS.Math_sqrt, SFsqrt; try constructor.
  destruct (SFsqrt_core_binary JS.prec JS.emax (Z.pos m) e) as [[mz ez] lz] eqn:E.
  apply binary_round_aux_signed.
  unfold SFsqrt_core_binary in E.
  destruct (Z.sqrtrem _) as [q r] eqn:Eq in E.
  injection E as <- _ _.
  change q with (fst (q, r)). rewrite <- Eq.
  rewrite Z.sqrtrem_sqrt. apply Z.sqrt_nonneg.
Qed.

Lemma euclideanDistance_nonneg a b :
  finite_position a = true -> finite_position b = true ->
  signed_as false (euclideanDistance a b).
Proof.
  unfold finite_position. rewrite !andb_true_iff.
  intros [Hax Hay] [Hbx Hby]. unfold euclideanDistance.
  apply sqrt_nonneg, add_nonneg; apply pow2_nonneg, sub_finite_not_nan; assumption.
Qed.
End Ops.

(** ** Comparisons and [Math.min] *)

Lemma SFcompare_refl v : not_nan v -> SFcompare v v = Some Eq.
Proof.
  destruct v as [s|s| |s m e]; try discriminate; intros _; simpl.
  - reflexivity.
  - destruct s; reflexivity.
  - destruct s; rewrite Z.compare_refl, Pos.compare_cont_refl; reflexivity.
Qed.

Lemma SFcompare_antisym a b :
  SFcompare b a = option_map CompOpp (SFcompare a b).
Proof.
  destruct a as [sa|sa| |sa ma ea], b as [sb|sb| |sb mb eb]; simpl;
    try reflexivity; try (destruct sa; reflexivity); try (destruct sb; reflexivity);
    try (destruct sa, sb; reflexivity).
  f_equal. destruct sa, sb; simpl; try reflexivity;
    rewrite (Z.compare_antisym ea eb);
    destruct (ea ?= eb); simpl; try reflexivity;
    rewrite (Pos.compare_cont_antisym ma mb Eq); simpl;
    try rewrite CompOpp_involutive; reflexivity.
Qed.

Lemma lt_false_le a b :
  not_nan a -> not_nan b -> JS.lt b a = false -> SFleb a b = true.
Proof.
  intros Ha Hb. unfold JS.lt, SFltb, SFleb. rewrite (SFcompare_antisym a b).
  destruct (SFcompare a b) as [[]|] eqn:E; simpl; try reflexivity; try discriminate.
  destruct a, b; try discriminate; simpl in E; discriminate.
Qed.

Lemma lt_le a b : JS.lt a b = true -> SFleb a b = true.
Proof. unfold JS.lt, SFltb, SFleb. destruct (SFcompare a b) as [[]|]; auto. Qed.


Lemma lt_Infinity_false v :
  not_nan v -> JS.lt v JS.Infinity = false -> v = JS.Infinity.
Proof.
  unfold not_nan.
  destruct v as [s|[|]| |[|] m e]; simpl; intros Hv Hlt;
    try discriminate Hv; try discriminate Hlt; reflexivity.
Qed.

Lemma min_from_Infinity a rest :
  not_nan a -> JS.min_from JS.Infinity (a :: rest) = JS.min_from a rest.
Proof.
  intros Ha. cbn [JS.min_from]. rewrite Ha.
  replace (JS.is_zero_signed false JS.Infinity) with false by reflexivity.
  rewrite andb_false_r.
  destruct (JS.lt a JS.Infinity) eqn:E; [reflexivity|].
  rewrite (lt_Infinity_false a Ha E). reflexivity.
Qed.

(** [Math.min] of two Numbers, neither of them NaN. *)
Lemma Math_min_pair a b :
  not_nan a -> not_nan b ->
  JS.Math_min (a :: b :: nil)
  = if (JS.is_zero_signed true b && JS.is_zero_signed false a) || JS.lt b a
    then b else a.
Proof.
  intros Ha Hb. unfold JS.Math_min. rewrite (min_from_Infinity a _ Ha).
  cbn [JS.min_from]. rewrite Hb.
  destruct (JS.is_zero_signed true b && JS.is_zero_signed false a); [reflexivity|].
  destruct (JS.lt b a); reflexivity.
Qed.

(** ** Digits *)

Lemma fexp_eq k : fexp JS.prec JS.emax k = Z.max (k - 53) (-1074).
Proof. reflexivity. Qed.

Lemma digits2_pos_size m : digits2_pos m = Pos.size m.
Proof. induction m as [m IH|m IH|]; simpl; congruence. Qed.

Lemma Zdigits2_pos_bounds m :
  2 ^ (Z.pos (digits2_pos m) - 1) <= Z.pos m < 2 ^ Z.pos (digits2_pos m).
Proof.
  rewrite digits2_pos_size.
  pose proof (Pos.size_gt m) as Hgt. pose proof (Pos.size_le m) as Hle.
  apply Pos2Z.pos_lt_pos in Hgt. apply Pos2Z.pos_le_pos in Hle.
  rewrite Pos2Z.inj_pow in Hgt, Hle.
  replace (Z.pos (Pos.size m)) with (Z.succ (Z.pos (Pos.size m) - 1)) in Hle at 1 by lia.
  rewrite Z.pow_succ_r in Hle by lia. lia.
Qed.

Lemma Zdigits2_bounds m :
  0 < m -> 2 ^ (Zdigits2 m - 1) <= m < 2 ^ Zdigits2 m.
Proof. destruct m as [|m|m]; try lia. intros _. apply Zdigits2_pos_bounds. Qed.

Lemma Zdigits2_nonneg m : 0 <= Zdigits2 m.
Proof. destruct m; simpl; lia. Qed.

Lemma Zdigits2_pos m : 0 < m -> 0 < Zdigits2 m.
Proof. destruct m; simpl; lia. Qed.

Lemma Zdigits2_ge m k : 0 <= k -> 2 ^ k <= m -> k < Zdigits2 m.
Proof.
  intros Hk Hm.
  assert (Hpos : 0 < m) by (pose proof (Z.pow_pos_nonneg 2 k); lia).
  pose proof (Zdigits2_bounds m Hpos) as [_ Hub].
  apply (Z.pow_lt_mono_r_iff 2); try lia. apply Zdigits2_nonneg.
Qed.

Lemma Zdigits2_le m k : 0 <= k -> 0 <= m < 2 ^ k -> Zdigits2 m <= k.
Proof.
  intros Hk [Hm0 Hm].
  destruct (Z.eq_dec m 0) as [->|Hne]; [simpl; lia|].
  pose proof (Zdigits2_bounds m ltac:(lia)) as [Hlb _].
  assert (Zdigits2 m - 1 < k); [|lia].
  apply (Z.pow_lt_mono_r_iff 2); try lia.
Qed.

(** ** One shift to the right *)

Lemma shr_1_eq m r s :
  0 <= m ->
  shr_1 {| shr_m := m; shr_r := r; shr_s := s |}
  = {| shr_m := Z.div2 m; shr_r := Z.odd m; shr_s := r || s |}.
Proof. destruct m as [|[q|q|]|q]; try lia; reflexivity. Qed.

Lemma div2_odd_cases m :
  (Z.odd m = true /\ m = 2 * Z.div2 m + 1) \/ (Z.odd m = false /\ m = 2 * Z.div2 m).
Proof.
  pose proof (Z.div2_odd m) as H. destruct (Z.odd m); simpl in H; [left|right]; lia.
Qed.

Lemma shr_1_located X W mrs :
  0 < W -> 0 <= shr_m mrs -> located X W mrs -> located X (2 * W) (shr_1 mrs).
Proof.
  destruct mrs as [m r s]. cbn [shr_m]. intros HW Hm. rewrite (shr_1_eq m r s Hm).
  unfold located. cbn [shr_m shr_r shr_s].
  destruct (div2_odd_cases m) as [[-> Hmeq]|[-> Hmeq]];
    set (h := Z.div2 m) in *; clearbody h; subst m;
    destruct r, s; cbn [orb]; intros H; lia.
Qed.

Lemma shr_1_m mrs : 0 <= shr_m mrs -> shr_m (shr_1 mrs) = shr_m mrs / 2.
Proof.
  destruct mrs as [m r s]. cbn [shr_m]. intros Hm. rewrite (shr_1_eq m r s Hm).
  cbn [shr_m]. apply Z.div2_div.
Qed.

Lemma located_order X1 X2 W mrs1 mrs2 :
  0 < W -> located X1 W mrs1 -> located X2 W mrs2 -> X1 <= X2 ->
  code_of mrs1 <= code_of mrs2.
Proof.
  destruct mrs1 as [m1 r1 s1], mrs2 as [m2 r2 s2]. unfold located, code_of.
  cbn [shr_m shr_r shr_s]. intros HW H1 H2 HX.
  destruct (Z_lt_le_dec m2 m1) as [Hm|Hm].
  - assert (Hlt : (m2 + 1) * W <= m1 * W) by (apply Z.mul_le_mono_nonneg_r; lia).
    exfalso. destruct r1, s1, r2, s2; lia.
  - destruct (Z.eq_dec m1 m2) as [->|Hne]; [|destruct r1, s1, r2, s2; lia].
    destruct r1, s1, r2, s2; lia.
Qed.

Lemma rounded_mantissa_bounds mrs :
  shr_m mrs <= rounded_mantissa mrs <= shr_m mrs + 1.
Proof.
  destruct mrs as [m [|] [|]]; unfold rounded_mantissa; simpl;
    try destruct (Z.even m); lia.
Qed.

(** ** Rounding to nearest even is monotone *)

Lemma even_cases m :
  (Z.even m = true /\ exists k, m = 2 * k) \/ (Z.even m = false /\ exists k, m = 2 * k + 1).
Proof.
  destruct (Z.even m) eqn:E; [left|right]; split; try reflexivity.
  - apply Z.even_spec in E. exact E.
  - rewrite <- Z.negb_odd in E. apply negb_false_iff, Z.odd_spec in E. exact E.
Qed.

Lemma rounded_mantissa_mono mrs1 mrs2 :
  code_of mrs1 <= code_of mrs2 -> rounded_mantissa mrs1 <= rounded_mantissa mrs2.
Proof.
  destruct mrs1 as [m1 r1 s1], mrs2 as [m2 r2 s2]. unfold code_of, rounded_mantissa.
  cbn [shr_m shr_r shr_s loc_of_shr_record]. intros H.
  destruct (even_cases m1) as [[E1 [k1 K1]]|[E1 [k1 K1]]];
    destruct (even_cases m2) as [[E2 [k2 K2]]|[E2 [k2 K2]]];
    destruct r1, s1, r2, s2; cbn [round_nearest_even]; rewrite ?E1, ?E2; lia.
Qed.

(** ** Any number of shifts *)

Lemma iter_pos_shift {A : Type} (f : A -> A) (Q : Z -> A -> A -> Prop) :
  (forall a, Q 1 a (f a)) ->
  (forall j k a b c, 0 < j -> 0 < k -> Q j a b -> Q k b c -> Q (j + k) a c) ->
  forall n a, Q (Z.pos n) a (SpecFloat.iter_pos f n a).
Proof.
  intros Hone Hadd. induction n as [n IH|n IH|]; intros a; cbn [SpecFloat.iter_pos].
  - replace (Z.pos n~1) with (1 + (Z.pos n + Z.pos n)) by lia.
    apply (Hadd 1 (Z.pos n + Z.pos n) a (f a)); try lia; [apply Hone|].
    apply (Hadd (Z.pos n) (Z.pos n) (f a) (SpecFloat.iter_pos f n (f a))); try lia; apply IH.
  - replace (Z.pos n~0) with (Z.pos n + Z.pos n) by lia.
    apply (Hadd (Z.pos n) (Z.pos n) a (SpecFloat.iter_pos f n a)); try lia; apply IH.
  - apply Hone.
Qed.

Lemma shifted_one a : shifted 1 a (shr_1 a).
Proof.
  intros Ha. split; [|split].
  - rewrite shr_1_m by exact Ha. apply Z.div_pos; lia.
  - rewrite shr_1_m by exact Ha. reflexivity.
  - intros X W HW Hloc. change (2 ^ 1) with 2. apply shr_1_located; assumption.
Qed.

Lemma shifted_add j k a b c :
  0 < j -> 0 < k -> shifted j a b -> shifted k b c -> shifted (j + k) a c.
Proof.
  intros Hj Hk Hab Hbc Ha.
  destruct (Hab Ha) as (Hb & Hmb & Hlb). destruct (Hbc Hb) as (Hc & Hmc & Hlc).
  assert (Hpj : 0 < 2 ^ j) by (apply Z.pow_pos_nonneg; lia).
  assert (Hpk : 0 < 2 ^ k) by (apply Z.pow_pos_nonneg; lia).
  split; [exact Hc|split].
  - rewrite Hmc, Hmb, Z.pow_add_r by lia. apply Z.div_div; lia.
  - intros X W HW Hloc.
    replace (2 ^ (j + k) * W) with (2 ^ k * (2 ^ j * W))
      by (rewrite Z.pow_add_r by lia; ring).
    apply Hlc; [lia|]. apply Hlb; assumption.
Qed.

Lemma shr_shifted mrs e n :
  0 <= n -> shifted n mrs (fst (shr mrs e n)) /\ snd (shr mrs e n) = e + n.
Proof.
  intros Hn. destruct n as [|n|n]; try lia; cbn [shr fst snd].
  - split; [|lia]. intros Hm. split; [exact Hm|split].
    + rewrite Z.div_1_r. reflexivity.
    + intros X W _ Hloc. rewrite Z.mul_1_l. exact Hloc.
  - split; [|reflexivity].
    apply (iter_pos_shift shr_1 shifted shifted_one shifted_add).
Qed.

Lemma located_record_of_loc_m m l : shr_m (shr_record_of_loc m l) = m.
Proof. destruct l as [|[]]; reflexivity. Qed.

(** ** The result of [binary_round_aux] *)

Lemma target_exponent_eq m e :
  target_exponent m e = Z.max (Zdigits2 m + e - 53) (-1074).
Proof. reflexivity. Qed.

Lemma shifted_record_bounds m e l :
  round_ready m e ->
  0 <= shr_m (shifted_record m e l) < 2 ^ 53
  /\ (-1074 < target_exponent m e -> 2 ^ 52 <= shr_m (shifted_record m e l)).
Proof.
  intros [Hm He].
  pose proof (target_exponent_eq m e) as Ht.
  set (t := target_exponent m e) in *.
  unfold shifted_record. fold t.
  destruct (shr_shifted (shr_record_of_loc m l) e (t - e) ltac:(lia)) as [Hsh _].
  destruct (Hsh ltac:(rewrite located_record_of_loc_m; exact Hm)) as (H0 & Hdiv & _).
  rewrite located_record_of_loc_m in Hdiv.
  set (m' := shr_m (fst (shr (shr_record_of_loc m l) e (t - e)))) in *.
  assert (Hpn : 0 < 2 ^ (t - e)) by (apply Z.pow_pos_nonneg; lia).
  destruct (Z.eq_dec m 0) as [->|Hne].
  - rewrite Z.div_0_l in Hdiv by lia. simpl in Ht. split; [|lia].
    rewrite Hdiv. split; [lia|]. apply Z.pow_pos_nonneg; lia.
  - pose proof (Zdigits2_bounds m ltac:(lia)) as [Hlb Hub].
    pose proof (Zdigits2_pos m ltac:(lia)) as Hd.
    split; [split; [exact H0|]|].
    + rewrite Hdiv. apply Z.div_lt_upper_bound; [exact Hpn|].
      rewrite <- Z.pow_add_r by lia.
      apply Z.lt_le_trans with (1 := Hub). apply Z.pow_le_mono_r; lia.
    + intros Hnormal. rewrite Hdiv. apply Z.div_le_lower_bound; [exact Hpn|].
      rewrite <- Z.pow_add_r by lia.
      replace (t - e + 52) with (Zdigits2 m - 1) by lia. exact Hlb.
Qed.

Lemma binary_round_aux_rounded s m e l :
  round_ready m e ->
  binary_round_aux JS.prec JS.emax s m e l
  = rounded s (rounded_mantissa (shifted_record m e l)) (target_exponent m e).
Proof.
  intros Hready.
  destruct (shifted_record_bounds m e l Hready) as [[H0 Hub] _].
  destruct Hready as [Hm He].
  pose proof (target_exponent_eq m e) as Ht.
  unfold binary_round_aux, shr_fexp. fold (target_exponent m e).
  unfold shifted_record in *.
  set (t := target_exponent m e) in *.
  destruct (shr_shifted (shr_record_of_loc m l) e (t - e) ltac:(lia)) as [_ Hexp].
  destruct (shr (shr_record_of_loc m l) e (t - e)) as [mrs' e'].
  cbn [fst snd] in *. subst e'. replace (e + (t - e)) with t by lia.
  pose proof (rounded_mantissa_bounds mrs') as Hround.
  fold (rounded_mantissa mrs').
  set (m2 := rounded_mantissa mrs') in *.
  unfold rounded.
  destruct (Z.ltb_spec m2 (2 ^ 53)) as [Hlt|Hge].
  - assert (Hd : Zdigits2 m2 <= 53) by (apply Zdigits2_le; lia).
    assert (Hn : fexp JS.prec JS.emax (Zdigits2 m2 + t) - t <= 0)
      by (rewrite fexp_eq; lia).
    destruct (fexp JS.prec JS.emax (Zdigits2 m2 + t) - t) as [|n|n] eqn:En; try lia;
      cbn [shr shr_record_of_loc shr_m]; destruct m2; try lia; reflexivity.
  - assert (Hm2 : m2 = 2 ^ 53) by lia.
    rewrite Hm2.
    replace (fexp JS.prec JS.emax (Zdigits2 (2 ^ 53) + t) - t) with 1
      by (rewrite fexp_eq; change (Zdigits2 (2 ^ 53)) with 54; lia).
    reflexivity.
Qed.

Lemma rounded_mantissa_range m e l :
  round_ready m e ->
  0 <= rounded_mantissa (shifted_record m e l) <= 2 ^ 53
  /\ (-1074 < target_exponent m e ->
      2 ^ 52 <= rounded_mantissa (shifted_record m e l)).
Proof.
  intros Hready.
  destruct (shifted_record_bounds m e l Hready) as [[H0 Hub] Hlb].
  pose proof (rounded_mantissa_bounds (shifted_record m e l)) as Hround.
  split; [lia|]. intros Ht. specialize (Hlb Ht). lia.
Qed.

(** ** Rounded results are valid, and ordered as their inputs *)

Lemma target_exponent_min m e : -1074 <= target_exponent m e.
Proof. rewrite target_exponent_eq. lia. Qed.

Lemma rounded_valid s m2 t :
  -1074 <= t -> 0 <= m2 <= 2 ^ 53 -> (-1074 < t -> 2 ^ 52 <= m2) ->
  valid_binary JS.prec JS.emax (rounded s m2 t) = true.
Proof.
  intros Ht Hm Hnormal. unfold rounded.
  destruct m2 as [|q|q]; try lia; [reflexivity|].
  destruct (Z.ltb_spec (Z.pos q) (2 ^ 53)) as [Hlt|Hge].
  - destruct (Z.leb_spec t 971) as [Hle|Hgt]; [|reflexivity].
    cbn [valid_binary]. unfold bounded, canonical_mantissa.
    change (Z.pos (digits2_pos q)) with (Zdigits2 (Z.pos q)).
    rewrite fexp_eq. apply andb_true_iff. split; [|apply Z.leb_le; exact Hle].
    apply Z.eqb_eq.
    assert (Hd : Zdigits2 (Z.pos q) <= 53) by (apply Zdigits2_le; lia).
    destruct (Z.eq_dec t (-1074)) as [->|Hne]; [lia|].
    assert (52 < Zdigits2 (Z.pos q)) by (apply Zdigits2_ge; lia).
    lia.
  - destruct (Z.leb_spec (t + 1) 971) as [Hle|Hgt]; [|reflexivity].
    cbn [valid_binary]. unfold bounded, canonical_mantissa.
    change (Z.pos (digits2_pos 4503599627370496)) with 53.
    rewrite fexp_eq. apply andb_true_iff. split; [|apply Z.leb_le; exact Hle].
    apply Z.eqb_eq. lia.
Qed.

Lemma SFleb_finite m1 e1 m2 e2 :
  SFleb (S754_finite false m1 e1) (S754_finite false m2 e2) = true
  <-> e1 < e2 \/ (e1 = e2 /\ Z.pos m1 <= Z.pos m2).
Proof.
  unfold SFleb, SFcompare. fold (Pos.compare m1 m2).
  destruct (Z.compare_spec e1 e2) as [He|He|He].
  - destruct (Pos.compare_spec m1 m2) as [Hm|Hm|Hm]; split; intros H;
      try reflexivity; try discriminate; try lia.
  - split; intros H; [lia|reflexivity].
  - split; intros H; [discriminate|lia].
Qed.

Lemma rounded_le m1 t1 m2 t2 :
  0 <= m1 <= 2 ^ 53 -> 0 <= m2 <= 2 ^ 53 -> (-1074 < t2 -> 2 ^ 52 <= m2) ->
  -1074 <= t1 -> t1 < t2 \/ (t1 = t2 /\ m1 <= m2) ->
  SFleb (rounded false m1 t1) (rounded false m2 t2) = true.
Proof.
  intros Hm1 Hm2 Hnormal Ht1 Horder. unfold rounded.
  change (2 ^ 53) with 9007199254740992 in *.
  change (2 ^ 52) with 4503599627370496 in *.
  destruct m1 as [|q1|q1]; try lia.
  - destruct m2 as [|q2|q2]; try lia; [reflexivity|].
    repeat match goal with
           | |- context [if ?b then _ else _] => destruct b
           end; reflexivity.
  - destruct m2 as [|q2|q2]; try lia.
    destruct (Z.ltb_spec (Z.pos q1) 9007199254740992) as [Hc1|Hc1];
      destruct (Z.ltb_spec (Z.pos q2) 9007199254740992) as [Hc2|Hc2];
      repeat match goal with
             | |- context [?a <=? ?b] => destruct (Z.leb_spec a b)
             end;
      try reflexivity; try lia; apply SFleb_finite; lia.
Qed.

Lemma located_scale c X W mrs :
  0 < c -> located X W mrs -> located (c * X) (c * W) mrs.
Proof.
  intros Hc. unfold located. destruct (shr_r mrs), (shr_s mrs); intros H; nia.
Qed.

Lemma located_bounds X W m l :
  0 < W -> located X W (shr_record_of_loc m l) -> m * W <= X < (m + 1) * W.
Proof.
  intros HW. destruct l as [|[]]; unfold located; cbn [shr_record_of_loc shr_m shr_r shr_s];
    intros H; lia.
Qed.

Theorem binary_round_aux_mono m1 e1 l1 m2 e2 l2 X1 W1 X2 W2 B :
  round_ready m1 e1 -> round_ready m2 e2 ->
  0 < W1 -> 0 < W2 ->
  located X1 W1 (shr_record_of_loc m1 l1) ->
  located X2 W2 (shr_record_of_loc m2 l2) ->
  B <= e1 -> B <= e2 ->
  X1 * W2 * 2 ^ (e1 - B) <= X2 * W1 * 2 ^ (e2 - B) ->
  SFleb (binary_round_aux JS.prec JS.emax false m1 e1 l1)
        (binary_round_aux JS.prec JS.emax false m2 e2 l2) = true.
Proof.
  intros Hr1 Hr2 HW1 HW2 Hl1 Hl2 HB1 HB2 Hval.
  rewrite (binary_round_aux_rounded false m1 e1 l1 Hr1).
  rewrite (binary_round_aux_rounded false m2 e2 l2 Hr2).
  destruct (rounded_mantissa_range m1 e1 l1 Hr1) as [Hrange1 _].
  destruct (rounded_mantissa_range m2 e2 l2 Hr2) as [Hrange2 Hnormal2].
  apply rounded_le; try assumption; [apply target_exponent_min|].
  pose proof (located_bounds X1 W1 m1 l1 HW1 Hl1) as [Hlo1 _].
  pose proof (located_bounds X2 W2 m2 l2 HW2 Hl2) as [_ Hhi2].
  assert (Hp1 : 0 < 2 ^ (e1 - B)) by (apply Z.pow_pos_nonneg; lia).
  assert (Hp2 : 0 < 2 ^ (e2 - B)) by (apply Z.pow_pos_nonneg; lia).
  assert (Hcmp : m1 * 2 ^ (e1 - B) < (m2 + 1) * 2 ^ (e2 - B)).
  { assert (H1 : m1 * W1 * (W2 * 2 ^ (e1 - B)) <= X1 * (W2 * 2 ^ (e1 - B)))
      by (apply Z.mul_le_mono_nonneg_r; nia).
    assert (H2 : X2 * (W1 * 2 ^ (e2 - B)) < (m2 + 1) * W2 * (W1 * 2 ^ (e2 - B)))
      by (apply Z.mul_lt_mono_pos_r; nia).
    assert (H3 : (m1 * 2 ^ (e1 - B)) * (W1 * W2) < ((m2 + 1) * 2 ^ (e2 - B)) * (W1 * W2))
      by nia.
    apply Z.mul_lt_mono_pos_r in H3; [exact H3|nia]. }
  assert (Hle : target_exponent m1 e1 <= target_exponent m2 e2).
  { rewrite !target_exponent_eq.
    destruct Hr1 as [Hm1 He1], Hr2 as [Hm2 He2].
    rewrite target_exponent_eq in He1, He2.
    destruct (Z.eq_dec m1 0) as [->|Hne1]; [simpl in *; lia|].
    pose proof (Zdigits2_bounds m1 ltac:(lia)) as [Hlb1 _].
    assert (Hub2 : m2 + 1 <= 2 ^ Zdigits2 m2).
    { destruct (Z.eq_dec m2 0) as [->|Hne2]; [simpl; lia|].
      pose proof (Zdigits2_bounds m2 ltac:(lia)). lia. }
    pose proof (Zdigits2_pos m1 ltac:(lia)) as Hd1.
    pose proof (Zdigits2_nonneg m2) as Hd2.
    assert (Hpow : 2 ^ (Zdigits2 m1 - 1 + (e1 - B)) < 2 ^ (Zdigits2 m2 + (e2 - B))).
    { rewrite !Z.pow_add_r by lia.
      apply Z.le_lt_trans with (m1 * 2 ^ (e1 - B)); [nia|].
      apply Z.lt_le_trans with (1 := Hcmp). nia. }
    apply Z.pow_lt_mono_r_iff in Hpow; lia. }
  destruct (Z.eq_dec (target_exponent m1 e1) (target_exponent m2 e2)) as [Heq|Hne];
    [right|left; lia].
  split; [exact Heq|]. apply rounded_mantissa_mono.
  destruct Hr1 as [Hm1 He1], Hr2 as [Hm2 He2].
  unfold shifted_record. rewrite <- Heq.
  set (t := target_exponent m1 e1) in *.
  destruct (shr_shifted (shr_record_of_loc m1 l1) e1 (t - e1) ltac:(lia)) as [Hs1 _].
  destruct (shr_shifted (shr_record_of_loc m2 l2) e2 (t - e2) ltac:(lia)) as [Hs2 _].
  destruct (Hs1 ltac:(rewrite located_record_of_loc_m; exact Hm1)) as (_ & _ & Hloc1).
  destruct (Hs2 ltac:(rewrite located_record_of_loc_m; exact Hm2)) as (_ & _ & Hloc2).
  specialize (Hloc1 X1 W1 HW1 Hl1). specialize (Hloc2 X2 W2 HW2 Hl2).
  assert (Hq1 : 0 < 2 ^ (t - e1)) by (apply Z.pow_pos_nonneg; lia).
  assert (Hq2 : 0 < 2 ^ (t - e2)) by (apply Z.pow_pos_nonneg; lia).
  apply (located_scale (2 ^ (t - e2) * W2)) in Hloc1; [|nia].
  apply (located_scale (2 ^ (t - e1) * W1)) in Hloc2; [|nia].
  replace (2 ^ (t - e1) * W1 * (2 ^ (t - e2) * W2))
    with (2 ^ (t - e2) * W2 * (2 ^ (t - e1) * W1)) in Hloc2 by ring.
  eapply located_order; [|exact Hloc1|exact Hloc2|]; [nia|].
  assert (Hc : 0 < 2 ^ (t - B)) by (apply Z.pow_pos_nonneg; lia).
  assert (E1 : 2 ^ (t - B) = 2 ^ (t - e1) * 2 ^ (e1 - B))
    by (rewrite <- Z.pow_add_r by lia; f_equal; lia).
  assert (E2 : 2 ^ (t - B) = 2 ^ (t - e2) * 2 ^ (e2 - B))
    by (rewrite <- Z.pow_add_r by lia; f_equal; lia).
  apply (Z.mul_le_mono_pos_r _ _ (2 ^ (t - B)) Hc).
  transitivity (X1 * W2 * 2 ^ (e1 - B) * (2 ^ (t - e1) * 2 ^ (t - e2))).
  { rewrite E1 at 1. apply Z.eq_le_incl. ring. }
  transitivity (X2 * W1 * 2 ^ (e2 - B) * (2 ^ (t - e1) * 2 ^ (t - e2))).
  { apply Z.mul_le_mono_nonneg_r; [nia|exact Hval]. }
  rewrite E2. apply Z.eq_le_incl. ring.
Qed.

(** ** Valid finite Numbers *)

Lemma binary_round_aux_valid s m e l :
  round_ready m e -> valid_binary JS.prec JS.emax (binary_round_aux JS.prec JS.emax s m e l) = true.
Proof.
  intros Hready. rewrite (binary_round_aux_rounded s m e l Hready).
  destruct (rounded_mantissa_range m e l Hready) as [Hrange Hnormal].
  apply rounded_valid; [apply target_exponent_min|exact Hrange|exact Hnormal].
Qed.

(** What [valid_binary] says of a finite Number. *)
Lemma valid_finite s m e :
  valid_binary JS.prec JS.emax (S754_finite s m e) = true ->
  Zdigits2 (Z.pos m) <= 53 /\ -1074 <= e <= 971
  /\ (-1074 < e -> Zdigits2 (Z.pos m) = 53).
Proof.
  cbn [valid_binary]. unfold bounded, canonical_mantissa.
  change (Z.pos (digits2_pos m)) with (Zdigits2 (Z.pos m)).
  rewrite fexp_eq, andb_true_iff, Z.eqb_eq, Z.leb_le.
  change (JS.emax - JS.prec) with 971. lia.
Qed.

(** The order of two valid positive finite Numbers is the order of their
    values, here scaled by a common power of two. *)
Lemma finite_le_value m1 e1 m2 e2 C :
  valid_binary JS.prec JS.emax (S754_finite false m1 e1) = true ->
  valid_binary JS.prec JS.emax (S754_finite false m2 e2) = true ->
  SFleb (S754_finite false m1 e1) (S754_finite false m2 e2) = true ->
  C <= e1 -> C <= e2 ->
  Z.pos m1 * 2 ^ (e1 - C) <= Z.pos m2 * 2 ^ (e2 - C).
Proof.
  intros Hv1 Hv2 Hle HC1 HC2.
  apply valid_finite in Hv1, Hv2. apply SFleb_finite in Hle.
  destruct Hle as [Hlt|[-> Hm]].
  - destruct Hv1 as (Hd1 & He1 & _), Hv2 as (_ & _ & Hd2).
    specialize (Hd2 ltac:(lia)).
    pose proof (Zdigits2_bounds (Z.pos m1) ltac:(lia)) as [_ Hub1].
    pose proof (Zdigits2_bounds (Z.pos m2) ltac:(lia)) as [Hlb2 _].
    rewrite Hd2 in Hlb2.
    assert (Hub : Z.pos m1 < 2 ^ 53).
    { apply Z.lt_le_trans with (1 := Hub1). apply Z.pow_le_mono_r; lia. }
    assert (Hp1 : 0 < 2 ^ (e1 - C)) by (apply Z.pow_pos_nonneg; lia).
    assert (Hp2 : 0 < 2 ^ (e2 - C)) by (apply Z.pow_pos_nonneg; lia).
    transitivity (2 ^ 53 * 2 ^ (e1 - C)); [nia|].
    transitivity (2 ^ (53 - 1) * 2 ^ (e2 - C)); [|apply Z.mul_le_mono_nonneg_r; lia].
    rewrite <- !Z.pow_add_r by lia. apply Z.pow_le_mono_r; lia.
  - apply Z.mul_le_mono_nonneg_r; [|exact Hm].
    apply Z.pow_nonneg. lia.
Qed.

(** ** Division *)

Lemma new_location_located q r W :
  0 < W -> 0 <= r < W ->
  located (q * W + r) W (shr_record_of_loc q (new_location W r)).
Proof.
  intros HW Hr. unfold new_location, new_location_even, new_location_odd.
  destruct (even_cases W) as [[-> [k Hk]]|[-> [k Hk]]];
    destruct (Z.eqb_spec r 0) as [->|Hr0];
    try (unfold located; cbn [shr_record_of_loc shr_m shr_r shr_s]; lia).
  - destruct (Z.compare_spec (2 * r) W);
      unfold located; cbn [shr_record_of_loc shr_m shr_r shr_s]; lia.
  - destruct (Z.compare_spec (2 * r + 1) W);
      unfold located; cbn [shr_record_of_loc shr_m shr_r shr_s]; lia.
Qed.

(** The quotient handed to the rounding: enough digits, and located by the
    remainder. *)
Lemma div_core_spec mx ex my ey :
  exists q e' l,
    SFdiv_core_binary JS.prec JS.emax (Z.pos mx) ex (Z.pos my) ey = (q, e', l)
    /\ round_ready q e'
    /\ e' <= ex - ey
    /\ located (Z.pos mx * 2 ^ (ex - ey - e')) (Z.pos my) (shr_record_of_loc q l).
Proof.
  unfold SFdiv_core_binary.
  set (d1 := Zdigits2 (Z.pos mx)). set (d2 := Zdigits2 (Z.pos my)).
  set (e' := Z.min (fexp JS.prec JS.emax (d1 + ex - (d2 + ey))) (ex - ey)).
  set (s := ex - ey - e').
  assert (Hs : 0 <= s) by (unfold s, e'; lia).
  set (m' := match s with
             | 0 => Z.pos mx
             | Z.pos _ => Z.shiftl (Z.pos mx) s
             | Z.neg _ => 0
             end).
  assert (Hm' : m' = Z.pos mx * 2 ^ s).
  { unfold m'. destruct s as [|n|n] eqn:Es; try lia.
    apply Z.shiftl_mul_pow2. lia. }
  clearbody m'.
  pose proof (Z_div_mod m' (Z.pos my) ltac:(lia)) as Hdm.
  destruct (Z.div_eucl m' (Z.pos my)) as [q r]. destruct Hdm as [Hq Hr].
  exists q, e', (new_location (Z.pos my) r).
  assert (Hps : 0 < 2 ^ s) by (apply Z.pow_pos_nonneg; lia).
  assert (Hq0 : 0 <= q) by nia.
  split; [reflexivity|]. split; [|split; [unfold e'; lia|]].
  - split; [exact Hq0|]. rewrite target_exponent_eq.
    destruct (Z_le_gt_dec e' (-1074)) as [Hlow|Hhigh]; [lia|].
    assert (He' : e' <= d1 + ex - (d2 + ey) - 53)
      by (unfold e' in *; rewrite fexp_eq in *; lia).
    pose proof (Zdigits2_bounds (Z.pos mx) ltac:(lia)) as [Hlb1 _].
    pose proof (Zdigits2_bounds (Z.pos my) ltac:(lia)) as [_ Hub2].
    fold d1 in Hlb1. fold d2 in Hub2.
    pose proof (Zdigits2_pos (Z.pos mx) ltac:(lia)) as Hd1. fold d1 in Hd1.
    pose proof (Zdigits2_pos (Z.pos my) ltac:(lia)) as Hd2. fold d2 in Hd2.
    assert (Hk : 52 <= d1 + s - 1 - d2) by (unfold s; lia).
    assert (Hbig : 2 ^ (d1 + s - 1 - d2) <= q).
    { assert (Hprod : 2 ^ (d1 + s - 1 - d2) * 2 ^ d2 <= m').
      { rewrite <- Z.pow_add_r by lia. rewrite Hm'.
        replace (d1 + s - 1 - d2 + d2) with (d1 - 1 + s) by lia.
        rewrite Z.pow_add_r by lia. apply Z.mul_le_mono_nonneg_r; lia. }
      set (k := 2 ^ (d1 + s - 1 - d2)) in *.
      destruct (Z_lt_le_dec q k) as [Hlt|Hge]; [exfalso|exact Hge].
      assert (H1 : Z.pos my * (q + 1) <= Z.pos my * k)
        by (apply Z.mul_le_mono_nonneg_l; lia).
      assert (H2 : k * Z.pos my <= k * 2 ^ d2)
        by (apply Z.mul_le_mono_nonneg_l; lia).
      lia. }
    assert (d1 + s - 1 - d2 < Zdigits2 q) by (apply Zdigits2_ge; lia).
    lia.
  - fold s. rewrite <- Hm', Hq. rewrite (Z.mul_comm (Z.pos my) q).
    apply new_location_located; lia.
Qed.

(** ** Dividing non-negative Numbers *)

Lemma zero_le_signed_false s v : signed_as false v -> SFleb (S754_zero s) v = true.
Proof. destruct 1; reflexivity. Qed.

Lemma signed_false_le_Infinity v : signed_as false v -> SFleb v JS.Infinity = true.
Proof. destruct 1; reflexivity. Qed.

Lemma signed_true_le_signed_false a b :
  signed_as true a -> signed_as false b -> SFleb a b = true.
Proof. destruct 1; destruct 1; reflexivity. Qed.

Lemma Infinity_le_signed_false v :
  signed_as false v -> SFleb JS.Infinity v = true -> v = JS.Infinity.
Proof. destruct 1; simpl; intros H; try discriminate; reflexivity. Qed.

(** Dividing by a positive finite Number. *)
Lemma div_positive_spec mx ex my ey :
  exists q e' l,
    JS.div (S754_finite false mx ex) (S754_finite false my ey)
    = binary_round_aux JS.prec JS.emax false q e' l
    /\ round_ready q e'
    /\ e' <= ex - ey
    /\ located (Z.pos mx * 2 ^ (ex - ey - e')) (Z.pos my) (shr_record_of_loc q l).
Proof.
  destruct (div_core_spec mx ex my ey) as (q & e' & l & Hcore & Hready & He' & Hloc).
  exists q, e', l. unfold JS.div, SFdiv. rewrite Hcore. auto.
Qed.

Lemma div_nonneg a my ey :
  signed_as false a -> signed_as false (JS.div a (S754_finite false my ey)).
Proof.
  intros [| |mx ex]; try constructor.
  destruct (div_positive_spec mx ex my ey) as (q & e' & l & -> & [Hq _] & _).
  apply binary_round_aux_signed. exact Hq.
Qed.

(** Division by a positive finite Number keeps the order of non-negative
    Numbers. *)
Theorem div_mono_nonneg a b my ey :
  signed_as false a -> signed_as false b ->
  valid_binary JS.prec JS.emax a = true -> valid_binary JS.prec JS.emax b = true ->
  SFleb a b = true ->
  SFleb (JS.div a (S754_finite false my ey)) (JS.div b (S754_finite false my ey)) = true.
Proof.
  intros Ha Hb Hva Hvb Hle.
  pose proof (div_nonneg b my ey Hb) as Hdb.
  destruct Ha as [| |m1 e1].
  - apply zero_le_signed_false. exact Hdb.
  - rewrite (Infinity_le_signed_false b Hb Hle). reflexivity.
  - destruct Hb as [| |m2 e2].
    + discriminate Hle.
    + apply signed_false_le_Infinity. apply div_nonneg. constructor.
    + destruct (div_positive_spec m1 e1 my ey) as (q1 & e1' & l1 & -> & Hr1 & He1 & Hl1).
      destruct (div_positive_spec m2 e2 my ey) as (q2 & e2' & l2 & -> & Hr2 & He2 & Hl2).
      set (B := Z.min e1' e2').
      apply (binary_round_aux_mono q1 e1' l1 q2 e2' l2
               (Z.pos m1 * 2 ^ (e1 - ey - e1')) (Z.pos my)
               (Z.pos m2 * 2 ^ (e2 - ey - e2')) (Z.pos my) B);
        try assumption; try lia.
      pose proof (finite_le_value m1 e1 m2 e2 (ey + B) Hva Hvb Hle
                    ltac:(lia) ltac:(lia)) as Hval.
      assert (E1 : 2 ^ (e1 - (ey + B)) = 2 ^ (e1 - ey - e1') * 2 ^ (e1' - B))
        by (rewrite <- Z.pow_add_r by lia; f_equal; lia).
      assert (E2 : 2 ^ (e2 - (ey + B)) = 2 ^ (e2 - ey - e2') * 2 ^ (e2' - B))
        by (rewrite <- Z.pow_add_r by lia; f_equal; lia).
      rewrite E1, E2 in Hval.
      apply (Z.mul_le_mono_nonneg_r _ _ (Z.pos my)) in Hval; [|lia].
      etransitivity; [|etransitivity; [apply Hval|]]; apply Z.eq_le_incl; ring.
Qed.

(** ** Alignment and [binary_normalize] *)

Lemma iter_xO_value m d : Z.pos (Pos.iter xO m d) = Z.pos m * 2 ^ Z.pos d.
Proof.
  induction d as [|d IH] using Pos.peano_ind.
  - simpl. lia.
  - rewrite Pos.iter_succ, Pos2Z.inj_xO, IH, Pos2Z.inj_succ, Z.pow_succ_r by lia. ring.
Qed.

Lemma shl_align_value m e e' :
  e' <= e ->
  Z.pos (fst (shl_align m e e')) = Z.pos m * 2 ^ (e - e')
  /\ snd (shl_align m e e') = e'.
Proof.
  intros He. unfold shl_align.
  destruct (e' - e) as [|d|d] eqn:Ed; try lia; cbn [fst snd].
  - replace (e - e') with 0 by lia. split; lia.
  - rewrite iter_xO_value. replace (e - e') with (Z.pos d) by lia. split; lia.
Qed.

Lemma shl_align_keep m e e' : e <= e' -> shl_align m e e' = (m, e).
Proof.
  intros He. unfold shl_align. destruct (e' - e) as [|d|d] eqn:Ed; try lia; reflexivity.
Qed.

Lemma Zdigits2_mul_pow2 m k :
  0 < m -> 0 <= k -> Zdigits2 (m * 2 ^ k) = Zdigits2 m + k.
Proof.
  intros Hm Hk.
  pose proof (Zdigits2_bounds m Hm) as [Hlb Hub].
  pose proof (Zdigits2_pos m Hm) as Hd.
  assert (Hp : 0 < 2 ^ k) by (apply Z.pow_pos_nonneg; lia).
  assert (Hlo : Zdigits2 m + k - 1 < Zdigits2 (m * 2 ^ k)).
  { apply Zdigits2_ge; [lia|].
    replace (Zdigits2 m + k - 1) with (Zdigits2 m - 1 + k) by lia.
    rewrite Z.pow_add_r by lia. apply Z.mul_le_mono_nonneg_r; lia. }
  assert (Hhi : Zdigits2 (m * 2 ^ k) <= Zdigits2 m + k).
  { apply Zdigits2_le; [lia|]. split; [nia|].
    rewrite Z.pow_add_r by lia. apply Z.mul_lt_mono_pos_r; lia. }
  lia.
Qed.

(** [binary_round] aligns, then rounds an exact value. *)
Lemma binary_round_spec s m e :
  exists mz ez,
    binary_round JS.prec JS.emax s m e
    = binary_round_aux JS.prec JS.emax s (Z.pos mz) ez loc_Exact
    /\ round_ready (Z.pos mz) ez
    /\ ez <= e
    /\ Z.pos mz = Z.pos m * 2 ^ (e - ez).
Proof.
  unfold binary_round.
  change (Z.pos (digits2_pos m)) with (Zdigits2 (Z.pos m)).
  set (t := fexp JS.prec JS.emax (Zdigits2 (Z.pos m) + e)).
  destruct (Z_lt_le_dec t e) as [Hlt|Hge].
  - destruct (shl_align_value m e t ltac:(lia)) as [Hm He].
    destruct (shl_align m e t) as [mz ez]. cbn [fst snd] in *. subst ez.
    exists mz, t. split; [reflexivity|]. split; [|split; [lia|exact Hm]].
    split; [lia|]. unfold target_exponent. rewrite Hm, Zdigits2_mul_pow2 by lia.
    replace (Zdigits2 (Z.pos m) + (e - t) + t) with (Zdigits2 (Z.pos m) + e) by lia.
    fold t. lia.
  - rewrite (shl_align_keep m e t Hge).
    exists m, e. split; [reflexivity|]. split; [split; [lia|exact Hge]|].
    split; [lia|]. replace (e - e) with 0 by lia. simpl. lia.
Qed.

Lemma binary_round_valid s m e :
  valid_binary JS.prec JS.emax (binary_round JS.prec JS.emax s m e) = true.
Proof.
  destruct (binary_round_spec s m e) as (mz & ez & -> & Hready & _).
  apply binary_round_aux_valid. exact Hready.
Qed.

Lemma binary_round_mono m1 e1 m2 e2 B :
  B <= e1 -> B <= e2 ->
  Z.pos m1 * 2 ^ (e1 - B) <= Z.pos m2 * 2 ^ (e2 - B) ->
  SFleb (binary_round JS.prec JS.emax false m1 e1)
        (binary_round JS.prec JS.emax false m2 e2) = true.
Proof.
  intros HB1 HB2 Hval.
  destruct (binary_round_spec false m1 e1) as (mz1 & ez1 & -> & Hr1 & He1 & Hm1).
  destruct (binary_round_spec false m2 e2) as (mz2 & ez2 & -> & Hr2 & He2 & Hm2).
  set (C := Z.min B (Z.min ez1 ez2)).
  apply (binary_round_aux_mono _ _ _ _ _ _ (Z.pos mz1) 1 (Z.pos mz2) 1 C);
    try assumption; try lia;
    try (unfold located; cbn [shr_record_of_loc shr_m shr_r shr_s]; lia).
  rewrite Hm1, Hm2, !Z.mul_1_r, <- !Z.mul_assoc, <- !Z.pow_add_r by lia.
  replace (e1 - ez1 + (ez1 - C)) with (e1 - B + (B - C)) by lia.
  replace (e2 - ez2 + (ez2 - C)) with (e2 - B + (B - C)) by lia.
  rewrite !Z.pow_add_r, !Z.mul_assoc by lia.
  apply Z.mul_le_mono_nonneg_r; [apply Z.pow_nonneg; lia|exact Hval].
Qed.

(** ** Negative results *)

Lemma binary_round_aux_opp m e l :
  binary_round_aux JS.prec JS.emax true m e l
  = SFopp (binary_round_aux JS.prec JS.emax false m e l).
Proof.
  unfold binary_round_aux.
  destruct (shr_fexp JS.prec JS.emax m e l) as [mrs' e'].
  destruct (shr_fexp JS.prec JS.emax _ e' loc_Exact) as [mrs'' e''].
  destruct (shr_m mrs''); try reflexivity.
  destruct (e'' <=? JS.emax - JS.prec); reflexivity.
Qed.

Lemma binary_round_opp m e :
  binary_round JS.prec JS.emax true m e
  = SFopp (binary_round JS.prec JS.emax false m e).
Proof.
  unfold binary_round. destruct (shl_align m e _) as [mz ez].
  apply binary_round_aux_opp.
Qed.

Lemma SFcompare_opp a b :
  SFcompare (SFopp a) (SFopp b) = SFcompare b a.
Proof.
  rewrite (SFcompare_antisym a b).
  destruct a as [sa|sa| |sa ma ea], b as [sb|sb| |sb mb eb]; simpl;
    try reflexivity; try (destruct sa; reflexivity); try (destruct sb; reflexivity);
    try (destruct sa, sb; reflexivity).
  f_equal. destruct sa, sb; simpl; try reflexivity;
    destruct (ea ?= eb); simpl; try reflexivity;
    destruct (Pos.compare_cont Eq ma mb); reflexivity.
Qed.

Lemma SFleb_opp a b : SFleb (SFopp a) (SFopp b) = SFleb b a.
Proof. unfold SFleb. rewrite SFcompare_opp. reflexivity. Qed.

Lemma binary_normalize_signed m e :
  (m < 0 -> signed_as true (binary_normalize JS.prec JS.emax m e false))
  /\ (0 <= m -> signed_as false (binary_normalize JS.prec JS.emax m e false)).
Proof.
  destruct m as [|q|q]; cbn [binary_normalize]; split; intros H; try lia;
    try constructor; apply binary_round_signed.
Qed.

Lemma binary_normalize_valid m e :
  valid_binary JS.prec JS.emax (binary_normalize JS.prec JS.emax m e false) = true.
Proof.
  destruct m as [|q|q]; cbn [binary_normalize]; [reflexivity| |]; apply binary_round_valid.
Qed.

(** [binary_normalize] keeps the order of the values [m * 2^e]. *)
Theorem binary_normalize_mono m1 e1 m2 e2 B :
  B <= e1 -> B <= e2 ->
  m1 * 2 ^ (e1 - B) <= m2 * 2 ^ (e2 - B) ->
  SFleb (binary_normalize JS.prec JS.emax m1 e1 false)
        (binary_normalize JS.prec JS.emax m2 e2 false) = true.
Proof.
  intros HB1 HB2 Hval.
  assert (Hp1 : 0 < 2 ^ (e1 - B)) by (apply Z.pow_pos_nonneg; lia).
  assert (Hp2 : 0 < 2 ^ (e2 - B)) by (apply Z.pow_pos_nonneg; lia).
  destruct (Z_lt_le_dec m1 0) as [Hn1|Hn1]; destruct (Z_lt_le_dec m2 0) as [Hn2|Hn2].
  - destruct m1 as [|q1|q1], m2 as [|q2|q2]; try lia. cbn [binary_normalize].
    rewrite !binary_round_opp, SFleb_opp.
    apply (binary_round_mono q2 e2 q1 e1 B); lia.
  - apply signed_true_le_signed_false.
    + apply (proj1 (binary_normalize_signed m1 e1) Hn1).
    + apply (proj2 (binary_normalize_signed m2 e2) Hn2).
  - exfalso. nia.
  - destruct m1 as [|q1|q1]; try lia.
    + apply zero_le_signed_false. apply (proj2 (binary_normalize_signed m2 e2) Hn2).
    + destruct m2 as [|q2|q2]; try lia. cbn [binary_normalize].
      apply (binary_round_mono q1 e1 q2 e2 B); lia.
Qed.

Lemma SFleb_not_nan a b : SFleb a b = true -> a <> S754_nan /\ b <> S754_nan.
Proof.
  unfold SFleb. destruct a, b; simpl; intros H; try discriminate; split; discriminate.
Qed.

(** ** Dividing Numbers of either sign *)

Lemma not_nan_signed v : not_nan v -> signed_as false v \/ signed_as true v.
Proof.
  destruct v as [[|]|[|]| |[|] m e]; try discriminate; intros _;
    (left; constructor) || (right; constructor).
Qed.

Lemma SFopp_signed s v : signed_as s v -> signed_as (negb s) (SFopp v).
Proof. destruct 1; constructor. Qed.

Lemma SFopp_involutive v : SFopp (SFopp v) = v.
Proof. destruct v as [s|s| |s m e]; simpl; rewrite ?negb_involutive; reflexivity. Qed.

Lemma SFopp_valid v :
  valid_binary JS.prec JS.emax (SFopp v) = valid_binary JS.prec JS.emax v.
Proof. destruct v; reflexivity. Qed.

Lemma div_opp a my ey :
  JS.div (SFopp a) (S754_finite false my ey) = SFopp (JS.div a (S754_finite false my ey)).
Proof.
  destruct a as [s|s| |s m e]; unfold JS.div, SFdiv; cbn [SFopp];
    try (destruct s; reflexivity); try reflexivity.
  destruct (SFdiv_core_binary JS.prec JS.emax (Z.pos m) e (Z.pos my) ey) as [[q e'] l].
  destruct s; cbn [negb xorb]; rewrite binary_round_aux_opp, ?SFopp_involutive; reflexivity.
Qed.

Lemma signed_false_le_signed_true a b :
  signed_as false a -> signed_as true b -> SFleb a b = true ->
  a = S754_zero false /\ b = S754_zero true.
Proof. destruct 1; destruct 1; simpl; intros H; try discriminate; auto. Qed.

(** Division by a positive finite Number keeps the order. *)
Theorem div_mono a b my ey :
  valid_binary JS.prec JS.emax a = true -> valid_binary JS.prec JS.emax b = true ->
  SFleb a b = true ->
  SFleb (JS.div a (S754_finite false my ey)) (JS.div b (S754_finite false my ey)) = true.
Proof.
  intros Hva Hvb Hle.
  destruct (SFleb_not_nan a b Hle) as [Hna Hnb].
  assert (Ha : not_nan a) by (destruct a; try reflexivity; congruence).
  assert (Hb : not_nan b) by (destruct b; try reflexivity; congruence).
  destruct (not_nan_signed a Ha) as [Hsa|Hsa], (not_nan_signed b Hb) as [Hsb|Hsb].
  - apply div_mono_nonneg; assumption.
  - destruct (signed_false_le_signed_true a b Hsa Hsb Hle) as [-> ->]. reflexivity.
  - apply signed_true_le_signed_false; [|apply div_nonneg; exact Hsb].
    rewrite <- (SFopp_involutive a), (div_opp (SFopp a)).
    apply (SFopp_signed false), div_nonneg. apply (SFopp_signed true). exact Hsa.
  - rewrite <- (SFopp_involutive a), <- (SFopp_involutive b) in Hle |- *.
    rewrite (div_opp (SFopp a)), (div_opp (SFopp b)), SFleb_opp.
    rewrite SFleb_opp in Hle.
    apply div_mono_nonneg.
    + apply (SFopp_signed true). exact Hsb.
    + apply (SFopp_signed true). exact Hsa.
    + rewrite SFopp_valid. exact Hvb.
    + rewrite SFopp_valid. exact Hva.
    + exact Hle.
Qed.

Lemma div_valid a my ey :
  valid_binary JS.prec JS.emax (JS.div a (S754_finite false my ey)) = true.
Proof.
  destruct a as [s|s| |s m e]; try reflexivity.
  unfold JS.div, SFdiv.
  destruct (div_core_spec m e my ey) as (q & e' & l & -> & Hready & _).
  apply binary_round_aux_valid. exact Hready.
Qed.

Lemma div_not_nan a my ey :
  not_nan a -> not_nan (JS.div a (S754_finite false my ey)).
Proof.
  intros Ha. destruct (not_nan_signed a Ha) as [Hs|Hs].
  - eapply signed_as_not_nan, div_nonneg, Hs.
  - rewrite <- (SFopp_involutive a), (div_opp (SFopp a)).
    eapply signed_as_not_nan, (SFopp_signed false), div_nonneg.
    apply (SFopp_signed true). exact Hs.
Qed.

(** ** [1 - q] *)

Lemma of_Z_1 : JS.of_Z 1 = one.
Proof. reflexivity. Qed.

Lemma neg_Infinity_le v : not_nan v -> SFleb (S754_infinity true) v = true.
Proof. destruct v as [s|[|]| |[|] m e]; try discriminate; reflexivity. Qed.

Lemma one_minus_form q :
  is_finite q = true ->
  JS.sub one q
  = binary_normalize JS.prec JS.emax
      (4503599627370496 * 2 ^ (-52 - Z.min (-52) (exponent_of q))
       - signed_mantissa q * 2 ^ (exponent_of q - Z.min (-52) (exponent_of q)))
      (Z.min (-52) (exponent_of q)) false.
Proof.
  destruct q as [s|s| |s mq eq]; try discriminate; intros _.
  - reflexivity.
  - unfold JS.sub, one, SFsub. cbn [signed_mantissa exponent_of].
    destruct (shl_align_value 4503599627370496 (-52) (Z.min (-52) eq) ltac:(lia)) as [-> _].
    destruct (shl_align_value mq eq (Z.min (-52) eq) ltac:(lia)) as [-> _].
    destruct s; cbn [cond_Zopp]; f_equal; lia.
Qed.

Lemma value_le a b C :
  is_finite a = true -> is_finite b = true ->
  valid_binary JS.prec JS.emax a = true -> valid_binary JS.prec JS.emax b = true ->
  SFleb a b = true ->
  C <= exponent_of a -> C <= exponent_of b ->
  signed_mantissa a * 2 ^ (exponent_of a - C) <= signed_mantissa b * 2 ^ (exponent_of b - C).
Proof.
  intros Hfa Hfb Hva Hvb Hle HCa HCb.
  assert (Hpa : 0 < 2 ^ (exponent_of a - C)) by (apply Z.pow_pos_nonneg; lia).
  assert (Hpb : 0 < 2 ^ (exponent_of b - C)) by (apply Z.pow_pos_nonneg; lia).
  destruct a as [sa|sa| |[|] ma ea], b as [sb|sb| |[|] mb eb]; try discriminate;
    cbn [signed_mantissa exponent_of cond_Zopp] in *; try lia; try nia.
  - change (S754_finite true ma ea) with (SFopp (S754_finite false ma ea)) in Hle.
    change (S754_finite true mb eb) with (SFopp (S754_finite false mb eb)) in Hle.
    rewrite SFleb_opp in Hle.
    pose proof (finite_le_value mb eb ma ea C Hvb Hva Hle HCb HCa). lia.
  - apply finite_le_value; assumption.
Qed.

Lemma le_Infinity v : not_nan v -> SFleb v JS.Infinity = true.
Proof. destruct v as [s|[|]| |[|] m e]; try discriminate; reflexivity. Qed.

Lemma Infinity_le v : SFleb JS.Infinity v = true -> v = JS.Infinity.
Proof. destruct v as [s|[|]| |[|] m e]; simpl; intros H; try discriminate; reflexivity. Qed.

Lemma one_minus_not_nan q : not_nan q -> not_nan (JS.sub one q).
Proof.
  intros Hq. destruct (is_finite q) eqn:Ef.
  - rewrite (one_minus_form q Ef). apply binary_normalize_not_nan.
  - destruct q as [s|[|]| |s m e]; try discriminate; reflexivity.
Qed.

(** Subtracting from 1 reverses the order. *)
Theorem one_minus_mono a b :
  valid_binary JS.prec JS.emax a = true -> valid_binary JS.prec JS.emax b = true ->
  SFleb a b = true ->
  SFleb (JS.sub one b) (JS.sub one a) = true.
Proof.
  intros Hva Hvb Hle.
  destruct (SFleb_not_nan a b Hle) as [Hna Hnb].
  assert (Ha : not_nan a) by (destruct a; try reflexivity; congruence).
  assert (Hb : not_nan b) by (destruct b; try reflexivity; congruence).
  destruct (is_finite a) eqn:Efa; [destruct (is_finite b) eqn:Efb|].
  - rewrite (one_minus_form a Efa), (one_minus_form b Efb).
    set (B := Z.min (Z.min (-52) (exponent_of a)) (Z.min (-52) (exponent_of b))).
    apply (binary_normalize_mono _ _ _ _ B); try lia.
    pose proof (value_le a b B Efa Efb Hva Hvb Hle ltac:(lia) ltac:(lia)) as Hval.
    rewrite !Z.mul_sub_distr_r, <- !Z.mul_assoc, <- !Z.pow_add_r by lia.
    replace (-52 - Z.min (-52) (exponent_of b) + (Z.min (-52) (exponent_of b) - B))
      with (-52 - B) by lia.
    replace (-52 - Z.min (-52) (exponent_of a) + (Z.min (-52) (exponent_of a) - B))
      with (-52 - B) by lia.
    replace (exponent_of b - Z.min (-52) (exponent_of b) + (Z.min (-52) (exponent_of b) - B))
      with (exponent_of b - B) by lia.
    replace (exponent_of a - Z.min (-52) (exponent_of a) + (Z.min (-52) (exponent_of a) - B))
      with (exponent_of a - B) by lia.
    lia.
  - destruct b as [sb|[|]| |sb mb eb]; try discriminate.
    + destruct a as [sa|sa| |[|] ma ea]; discriminate.
    + apply neg_Infinity_le, one_minus_not_nan, Ha.
  - destruct a as [sa|[|]| |sa ma ea]; try discriminate.
    + apply le_Infinity, one_minus_not_nan, Hb.
    + rewrite (Infinity_le b Hle). reflexivity.
Qed.

(** ** The confidence decimal *)

Lemma THRESHOLD_DISTANCE_finite :
  THRESHOLD_DISTANCE = S754_finite false 4837851162214400 (-43).
Proof. reflexivity. Qed.

Lemma Math_max_zero c :
  not_nan c ->
  JS.Math_max (JS.of_Z 0 :: c :: nil) = if JS.lt (JS.of_Z 0) c then c else JS.of_Z 0.
Proof.
  intros Hc. unfold JS.Math_max. cbn [JS.max_from].
  change (JS.is_nan (JS.of_Z 0)) with false. cbv iota.
  change (JS.is_zero_signed false (JS.of_Z 0) && JS.is_zero_signed true (S754_infinity true))
    with false. cbv iota.
  change (JS.lt (S754_infinity true) (JS.of_Z 0)) with true. cbv iota.
  rewrite Hc.
  change (JS.is_zero_signed true (JS.of_Z 0)) with false. rewrite andb_false_r.
  reflexivity.
Qed.

Lemma rawConfidence_not_nan d : not_nan d -> not_nan (rawConfidence d).
Proof.
  intros Hd. unfold rawConfidence. rewrite of_Z_1, THRESHOLD_DISTANCE_finite.
  apply one_minus_not_nan, div_not_nan, Hd.
Qed.

Lemma confidenceDecimal_cases d :
  not_nan d ->
  confidenceDecimal d
  = if JS.lt (JS.of_Z 0) (rawConfidence d) then rawConfidence d else JS.of_Z 0.
Proof.
  intros Hd. unfold confidenceDecimal. apply Math_max_zero, rawConfidence_not_nan, Hd.
Qed.

Lemma rawConfidence_mono d1 d2 :
  valid_binary JS.prec JS.emax d1 = true -> valid_binary JS.prec JS.emax d2 = true ->
  SFleb d1 d2 = true ->
  SFleb (rawConfidence d2) (rawConfidence d1) = true.
Proof.
  intros Hv1 Hv2 Hle. unfold rawConfidence.
  rewrite of_Z_1, THRESHOLD_DISTANCE_finite.
  apply one_minus_mono; try apply div_valid.
  apply div_mono; assumption.
Qed.

Lemma positive_le_positive a b :
  JS.lt (JS.of_Z 0) a = true -> SFleb a b = true -> JS.lt (JS.of_Z 0) b = true.
Proof.
  destruct a as [sa|[|]| |[|] ma ea], b as [sb|[|]| |[|] mb eb]; simpl;
    intros Ha Hb; try discriminate; reflexivity.
Qed.

Lemma signed_false_of_positive v : JS.lt (JS.of_Z 0) v = true -> signed_as false v.
Proof.
  destruct v as [s|[|]| |[|] m e]; simpl; intros H; try discriminate; constructor.
Qed.

Lemma confidenceDecimal_nonneg d :
  not_nan d -> signed_as false (confidenceDecimal d).
Proof.
  intros Hd. rewrite (confidenceDecimal_cases d Hd).
  destruct (JS.lt (JS.of_Z 0) (rawConfidence d)) eqn:E.
  - apply signed_false_of_positive. exact E.
  - constructor.
Qed.

Lemma SFleb_not_nan_l a b : SFleb a b = true -> not_nan a.
Proof. intros H. destruct (SFleb_not_nan a b H) as [Ha _]. destruct a; try reflexivity; congruence. Qed.

Lemma SFleb_not_nan_r a b : SFleb a b = true -> not_nan b.
Proof. intros H. destruct (SFleb_not_nan a b H) as [_ Hb]. destruct b; try reflexivity; congruence. Qed.

(** The confidence decimal does not increase with the distance. *)
Theorem confidenceDecimal_mono d1 d2 :
  valid_binary JS.prec JS.emax d1 = true -> valid_binary JS.prec JS.emax d2 = true ->
  SFleb d1 d2 = true ->
  SFleb (confidenceDecimal d2) (confidenceDecimal d1) = true.
Proof.
  intros Hv1 Hv2 Hle.
  pose proof (rawConfidence_mono d1 d2 Hv1 Hv2 Hle) as Hraw.
  rewrite (confidenceDecimal_cases d1 (SFleb_not_nan_l _ _ Hle)).
  rewrite (confidenceDecimal_cases d2 (SFleb_not_nan_r _ _ Hle)).
  destruct (JS.lt (JS.of_Z 0) (rawConfidence d2)) eqn:E2.
  - rewrite (positive_le_positive _ _ E2 Hraw). exact Hraw.
  - destruct (JS.lt (JS.of_Z 0) (rawConfidence d1)) eqn:E1.
    + apply lt_le. exact E1.
    + reflexivity.
Qed.

(** From distance zero on, the confidence decimal lies between 0 and 1. *)
Theorem confidenceDecimal_range d :
  valid_binary JS.prec JS.emax d = true ->
  SFleb (JS.of_Z 0) d = true ->
  SFleb (JS.of_Z 0) (confidenceDecimal d) = true
  /\ SFleb (confidenceDecimal d) (JS.of_Z 1) = true.
Proof.
  intros Hv Hd. split.
  - apply zero_le_signed_false, confidenceDecimal_nonneg, (SFleb_not_nan_r _ _ Hd).
  - change (JS.of_Z 1) with (confidenceDecimal (JS.of_Z 0)).
    apply confidenceDecimal_mono; [reflexivity|exact Hv|exact Hd].
Qed.

(** ** Acceptance *)

Lemma ge_SFleb a b : JS.ge a b = SFleb b a.
Proof.
  unfold JS.ge, SFleb. rewrite (SFcompare_antisym a b).
  destruct (SFcompare a b) as [[]|]; reflexivity.
Qed.

Lemma SFleb_trans_nonneg a b c :
  signed_as false a -> signed_as false b -> signed_as false c ->
  SFleb a b = true -> SFleb b c = true -> SFleb a c = true.
Proof.
  intros [| |ma ea] [| |mb eb] [| |mc ec] Hab Hbc;
    try reflexivity; try discriminate.
  apply SFleb_finite in Hab, Hbc. apply SFleb_finite. lia.
Qed.

(** A distance below an accepted one is accepted. *)
Theorem acceptedOf_downward d1 d2 :
  valid_binary JS.prec JS.emax d1 = true -> valid_binary JS.prec JS.emax d2 = true ->
  SFleb d1 d2 = true ->
  acceptedOf d2 = true -> acceptedOf d1 = true.
Proof.
  intros Hv1 Hv2 Hle. unfold acceptedOf. rewrite !ge_SFleb. intros Hacc.
  apply (SFleb_trans_nonneg _ (confidenceDecimal d2)).
  - constructor.
  - apply confidenceDecimal_nonneg, (SFleb_not_nan_r _ _ Hle).
  - apply confidenceDecimal_nonneg, (SFleb_not_nan_l _ _ Hle).
  - exact Hacc.
  - apply confidenceDecimal_mono; assumption.
Qed.

(** ** Square roots are valid Numbers *)

Lemma sqrt_core_ready m e :
  exists q e' l,
    SFsqrt_core_binary JS.prec JS.emax (Z.pos m) e = (q, e', l) /\ round_ready q e'.
Proof.
  unfold SFsqrt_core_binary.
  set (d := Zdigits2 (Z.pos m)).
  set (e' := Z.min (fexp JS.prec JS.emax (Z.div2 (d + e + 1))) (Z.div2 e)).
  set (s := e - 2 * e').
  assert (Hs : 0 <= s).
  { unfold s, e'. destruct (div2_odd_cases e) as [[_ H]|[_ H]]; lia. }
  set (m' := match s with
             | 0 => Z.pos m
             | Z.pos _ => Z.shiftl (Z.pos m) s
             | Z.neg _ => 0
             end).
  assert (Hm' : m' = Z.pos m * 2 ^ s).
  { unfold m'. destruct s as [|n|n] eqn:Es; try lia.
    apply Z.shiftl_mul_pow2. lia. }
  clearbody m'.
  assert (Hps : 0 < 2 ^ s) by (apply Z.pow_pos_nonneg; lia).
  pose proof (Z.sqrtrem_sqrt m') as Hsqrt.
  destruct (Z.sqrtrem m') as [q r]. cbn [fst] in Hsqrt. subst q.
  eexists _, _, _. split; [reflexivity|].
  split; [apply Z.sqrt_nonneg|]. rewrite target_exponent_eq.
  destruct (Z_le_gt_dec e' (-1074)) as [Hlow|Hhigh]; [lia|].
  assert (He' : e' <= Z.div2 (d + e + 1) - 53)
    by (unfold e' in *; rewrite fexp_eq in *; lia).
  pose proof (Zdigits2_bounds (Z.pos m) ltac:(lia)) as [Hlb _]. fold d in Hlb.
  pose proof (Zdigits2_pos (Z.pos m) ltac:(lia)) as Hd. fold d in Hd.
  assert (Hbig : 104 <= d - 1 + s).
  { unfold s. destruct (div2_odd_cases (d + e + 1)) as [[_ H]|[_ H]]; lia. }
  assert (Hlow : 2 ^ 52 <= Z.sqrt m').
  { apply Z.sqrt_le_square; try lia.
    change (2 ^ 52 * 2 ^ 52) with (2 ^ 104).
    apply Z.le_trans with (2 ^ (d - 1 + s)); [apply Z.pow_le_mono_r; lia|].
    rewrite Hm', Z.pow_add_r by lia. apply Z.mul_le_mono_nonneg_r; lia. }
  assert (52 < Zdigits2 (Z.sqrt m')) by (apply Zdigits2_ge; lia).
  lia.
Qed.

Lemma Math_sqrt_valid v : valid_binary JS.prec JS.emax (JS.Math_sqrt v) = true.
Proof.
  destruct v as [s|[|]| |[|] m e]; try reflexivity.
  unfold JS.Math_sqrt, SFsqrt.
  destruct (sqrt_core_ready m e) as (q & e' & l & -> & Hready).
  apply binary_round_aux_valid. exact Hready.
Qed.

(** ** The minimum distance is a valid Number *)

Lemma wristDistance_valid wrist nose :
  valid_binary JS.prec JS.emax (wristDistance wrist nose) = true.
Proof. destruct wrist as [w|]; simpl; [apply Math_sqrt_valid|reflexivity]. Qed.

Lemma min_from_invariant (P : JS.number -> Prop) lowest args :
  P S754_nan -> P lowest -> Forall P args -> P (JS.min_from lowest args).
Proof.
  intros Hnan Hlow Hargs. revert lowest Hlow.
  induction Hargs as [|n rest Hn _ IH]; intros lowest Hlow; cbn [JS.min_from].
  - exact Hlow.
  - destruct (JS.is_nan n); [exact Hnan|].
    destruct (JS.is_zero_signed true n && JS.is_zero_signed false lowest); [apply IH, Hn|].
    destruct (JS.lt n lowest); apply IH; assumption.
Qed.

Lemma minDist_valid kp nose :
  valid_binary JS.prec JS.emax (minDist kp nose) = true.
Proof.
  unfold minDist, JS.Math_min.
  apply (min_from_invariant (fun v => valid_binary JS.prec JS.emax v = true));
    try reflexivity.
  constructor; [apply wristDistance_valid|].
  constructor; [apply wristDistance_valid|constructor].
Qed.

(** ** The largest accepted distance *)

Lemma above_below_495 d :
  not_nan d -> SFleb d below_495 = false -> SFleb (JS.of_Z 495) d = true.
Proof.
  intros Hd Hnle.
  destruct d as [s|[|]| |[|] m e]; try discriminate; try reflexivity.
  change (JS.of_Z 495) with (S754_finite false 8708132091985920 (-44)).
  unfold below_495 in Hnle.
  apply SFleb_finite.
  destruct (Z_lt_le_dec (-44) e) as [Hlt|Hge]; [left; exact Hlt|right].
  destruct (Z.eq_dec e (-44)) as [->|Hne].
  - split; [reflexivity|].
    destruct (Z_le_gt_dec (Z.pos m) 8708132091985919) as [Hle|Hgt]; [|lia].
    exfalso. rewrite (proj2 (SFleb_finite m (-44) 8708132091985919 (-44))) in Hnle;
      [discriminate|lia].
  - exfalso. rewrite (proj2 (SFleb_finite m e 8708132091985919 (-44))) in Hnle;
      [discriminate|lia].
Qed.

(** Acceptance is exactly "at most the double just below 495". *)
Theorem acceptedOf_threshold d :
  valid_binary JS.prec JS.emax d = true ->
  acceptedOf d = SFleb d below_495.
Proof.
  intros Hv. destruct (SFleb d below_495) eqn:E.
  - apply (acceptedOf_downward d below_495); try assumption; reflexivity.
  - destruct (acceptedOf d) eqn:Hacc; [|reflexivity].
    destruct (JS.is_nan d) eqn:En; [destruct d; try discriminate En; discriminate Hacc|].
    assert (H495 : acceptedOf (JS.of_Z 495) = true).
    { apply (acceptedOf_downward (JS.of_Z 495) d); try assumption; try reflexivity.
      apply above_below_495; assumption. }
    vm_compute in H495. discriminate H495.
Qed.

(** ** The filter keeps parts and positions, and nothing else *)

Lemma collect_step_same_landmark kp p q :
  same_landmark p q -> collect_step kp p = collect_step kp q.
Proof. intros [Hpart Hpos]. unfold collect_step. rewrite Hpart, Hpos. reflexivity. Qed.

Lemma fold_collect_same_landmark ps qs :
  Forall2 same_landmark ps qs ->
  forall kp, fold_left collect_step ps kp = fold_left collect_step qs kp.
Proof.
  induction 1 as [|p q ps qs Hpq _ IH]; intros kp; simpl.
  - reflexivity.
  - rewrite (collect_step_same_landmark kp p q Hpq). apply IH.
Qed.

Lemma decide_with_nose kp nose :
  kp !! "nose"%string = Some nose ->
  decide kp
  = inr {| closestHand := closestHandOf (minDist kp nose) (distLeft kp nose);
           distance := reportedDistance (minDist kp nose);
           accepted := acceptedOf (minDist kp nose) |}.
Proof. intros Hnose. unfold decide. rewrite Hnose. reflexivity. Qed.

(** ** Acceptance, errors and purity *)

(** C2: with a nose, [accepted] is true exactly when
    [max(0, 1 - minDist / 550) >= 0.1], where [minDist] is the minimum
    [Math.min] returned, before any rounding; the reported distance is the
    only field the rounding touches. *)
Theorem accepted_from_unrounded_minDist kp nose :
  kp !! "nose"%string = Some nose ->
  exists j,
    decide kp = inr j
    /\ (accepted j = true <->
        (JS.Math_max
           (JS.of_Z 0
            :: (JS.of_Z 1
                - JS.Math_min (distLeft kp nose :: distRight kp nose :: nil)
                  / JS.of_Z 550)%js
            :: nil)
         >= JS.of_Z 1 / JS.of_Z 10)%js = true)
    /\ distance j
       = JS.parseFloat
           (JS.toFixed2 (JS.Math_min (distLeft kp nose :: distRight kp nose :: nil))).
Proof.
  intros Hnose. eexists. split; [apply (decide_with_nose kp nose Hnose)|].
  split; reflexivity.
Qed.

Lemma accepted_from_unrounded_minDist_witness :
  exists j,
    decide near_sample = inr j
    /\ (accepted j = true <->
        (JS.Math_max
           (JS.of_Z 0
            :: (JS.of_Z 1
                - JS.Math_min (distLeft near_sample (at_pixel 100 100)
                               :: distRight near_sample (at_pixel 100 100) :: nil)
                  / JS.of_Z 550)%js
            :: nil)
         >= JS.of_Z 1 / JS.of_Z 10)%js = true)
    /\ distance j
       = JS.parseFloat
           (JS.toFixed2
              (JS.Math_min (distLeft near_sample (at_pixel 100 100)
                            :: distRight near_sample (at_pixel 100 100) :: nil))).
Proof.
  apply (accepted_from_unrounded_minDist near_sample (at_pixel 100 100)).
  reflexivity.
Defined.

(** C4: without a nose the pipeline fails with [MissingAnchorError], which
    the handler answers with status 400 and "Nose not detected"; with a nose
    it always yields a Judgment, answered with status 200. *)
Theorem missing_nose_is_the_only_error kp :
  (kp !! "nose"%string = None ->
   decide kp = inl MissingAnchorError
   /\ respond (decide kp)
      = {| status := 400; body := ErrorBody "Nose not detected" |})
  /\ (forall nose, kp !! "nose"%string = Some nose ->
      exists j, decide kp = inr j
                /\ respond (decide kp) = {| status := 200; body := JudgmentBody j |}).
Proof.
  split.
  - intros Hnose. unfold decide. rewrite Hnose. split; reflexivity.
  - intros nose Hnose. rewrite (decide_with_nose kp nose Hnose).
    eexists. split; reflexivity.
Qed.

Lemma missing_nose_is_the_only_error_witness :
  (decide no_nose_sample = inl MissingAnchorError
   /\ respond (decide no_nose_sample)
      = {| status := 400; body := ErrorBody "Nose not detected" |})
  /\ (exists j, decide near_sample = inr j
                /\ respond (decide near_sample)
                   = {| status := 200; body := JudgmentBody j |}).
Proof.
  split.
  - apply (proj1 (missing_nose_is_the_only_error no_nose_sample)). reflexivity.
  - apply (proj2 (missing_nose_is_the_only_error near_sample) (at_pixel 100 100)).
    reflexivity.
Defined.

(** C5: with a nose and no wrist the pipeline yields a Judgment: the minimum
    distance is Infinity, the confidence decimal is 0, the reported distance
    is Infinity, [accepted] is false and [closestHand] is "leftWrist". *)
Theorem nose_only_judgment kp nose :
  kp !! "nose"%string = Some nose ->
  kp !! "leftWrist"%string = None ->
  kp !! "rightWrist"%string = None ->
  minDist kp nose = JS.Infinity
  /\ confidenceDecimal (minDist kp nose) = JS.of_Z 0
  /\ decide kp
     = inr {| closestHand := "leftWrist";
              distance := JS.Infinity;
              accepted := false |}.
Proof.
  intros Hnose Hleft Hright.
  assert (Hmin : minDist kp nose = JS.Infinity).
  { unfold minDist, distLeft, distRight. rewrite Hleft, Hright. reflexivity. }
  rewrite (decide_with_nose kp nose Hnose), Hmin.
  unfold distLeft. rewrite Hleft. repeat split; reflexivity.
Qed.

Lemma nose_only_judgment_witness :
  minDist nose_only_sample (at_pixel 0 0) = JS.Infinity
  /\ confidenceDecimal (minDist nose_only_sample (at_pixel 0 0)) = JS.of_Z 0
  /\ decide nose_only_sample
     = inr {| closestHand := "leftWrist";
              distance := JS.Infinity;
              accepted := false |}.
Proof.
  apply (nose_only_judgment nose_only_sample (at_pixel 0 0)); reflexivity.
Defined.

(** C7: a request without an uploaded file is answered with status 400 and
    "No image uploaded", whatever the collaborators would do, and the log of
    calls is left as it was: neither the model nor anything after it ran. *)
Theorem no_file_is_rejected
  (Buffer Image Canvas Net Exn : Type)
  (modelPromise : Exn + Net)
  (loadImage : Buffer -> Exn + Image)
  (drawOnCanvas : Image -> Exn + Canvas)
  (estimateSinglePose : Net -> Canvas -> Exn + list Keypoint)
  (log : list (Call Buffer Image Canvas Net Exn)) :
  pose_handler modelPromise loadImage drawOnCanvas estimateSinglePose None log
  = (inr {| status := 400; body := ErrorBody "No image uploaded" |}, log).
Proof. reflexivity. Qed.

(** With a file the handler does go to the model first, so the log of calls
    is not left as it was. *)
Lemma file_present_awaits_model
  (Buffer Image Canvas Net Exn : Type)
  (modelPromise : Exn + Net)
  (loadImage : Buffer -> Exn + Image)
  (drawOnCanvas : Image -> Exn + Canvas)
  (estimateSinglePose : Net -> Canvas -> Exn + list Keypoint)
  (buffer : Buffer)
  (log : list (Call Buffer Image Canvas Net Exn)) :
  exists rest,
    snd (pose_handler modelPromise loadImage drawOnCanvas estimateSinglePose
           (Some buffer) log)
    = log ++ AwaitModel :: rest.
Proof.
  unfold pose_handler, try_catch, bind, call, judge, ret.
  destruct modelPromise as [e|net]; simpl.
  { eexists. rewrite <- app_assoc. reflexivity. }
  destruct (loadImage buffer) as [e|image]; simpl.
  { eexists. rewrite <- !app_assoc. reflexivity. }
  destruct (drawOnCanvas image) as [e|canvas]; simpl.
  { eexists. rewrite <- !app_assoc. reflexivity. }
  destruct (estimateSinglePose net canvas) as [e|keypoints]; simpl.
  { eexists. rewrite <- !app_assoc. reflexivity. }
  eexists. rewrite <- !app_assoc. reflexivity.
Qed.

(** When every collaborator returns, the answer is the pipeline's, and the
    log holds the four calls in order. *)
Lemma pose_handler_estimated
  (Buffer Image Canvas Net Exn : Type)
  (modelPromise : Exn + Net)
  (loadImage : Buffer -> Exn + Image)
  (drawOnCanvas : Image -> Exn + Canvas)
  (estimateSinglePose : Net -> Canvas -> Exn + list Keypoint)
  (buffer : Buffer) (net : Net) (image : Image) (canvas : Canvas)
  (keypoints : list Keypoint)
  (log : list (Call Buffer Image Canvas Net Exn)) :
  modelPromise = inr net ->
  loadImage buffer = inr image ->
  drawOnCanvas image = inr canvas ->
  estimateSinglePose net canvas = inr keypoints ->
  pose_handler modelPromise loadImage drawOnCanvas estimateSinglePose
    (Some buffer) log
  = (inr (respond (decide (collect keypoints))),
     log ++ AwaitModel :: LoadImage buffer :: DrawCanvas image
         :: EstimatePose net canvas :: nil).
Proof.
  intros Hmodel Himage Hcanvas Hpose.
  unfold pose_handler, try_catch, bind, call, judge, ret.
  rewrite Hmodel, Himage, Hcanvas, Hpose. rewrite <- !app_assoc. reflexivity.
Qed.

(** When the image cannot be decoded, the error is logged and the answer is
    status 500. *)
Lemma pose_handler_decode_error
  (Buffer Image Canvas Net Exn : Type)
  (modelPromise : Exn + Net)
  (loadImage : Buffer -> Exn + Image)
  (drawOnCanvas : Image -> Exn + Canvas)
  (estimateSinglePose : Net -> Canvas -> Exn + list Keypoint)
  (buffer : Buffer) (net : Net) (error : Exn)
  (log : list (Call Buffer Image Canvas Net Exn)) :
  modelPromise = inr net ->
  loadImage buffer = inl error ->
  pose_handler modelPromise loadImage drawOnCanvas estimateSinglePose
    (Some buffer) log
  = (inr {| status := 500; body := ErrorBody "Pose estimation failed" |},
     log ++ AwaitModel :: LoadImage buffer :: ConsoleError error :: nil).
Proof.
  intros Hmodel Himage.
  unfold pose_handler, try_catch, bind, call, judge, ret.
  rewrite Hmodel, Himage. rewrite <- !app_assoc. reflexivity.
Qed.

(** C8: the pipeline is a function of the three entries it looks up, so
    equal keypoint sets give equal outcomes; and the stage that runs it
    neither depends on the log of calls nor adds to it. *)
Theorem decide_deterministic_and_pure :
  (forall kp1 kp2 : gmap string Vector2D,
      (forall name, In name tracked_parts -> kp1 !! name = kp2 !! name) ->
      decide kp1 = decide kp2)
  /\ (forall (Buffer Image Canvas Net Exn : Type) (keypoints : list Keypoint)
             (log : list (Call Buffer Image Canvas Net Exn)),
         judge keypoints log = (inr (respond (decide (collect keypoints))), log)).
Proof.
  split.
  - intros kp1 kp2 Hsame.
    assert (Hnose : kp1 !! "nose"%string = kp2 !! "nose"%string)
      by (apply Hsame; simpl; auto).
    assert (Hleft : kp1 !! "leftWrist"%string = kp2 !! "leftWrist"%string)
      by (apply Hsame; simpl; auto).
    assert (Hright : kp1 !! "rightWrist"%string = kp2 !! "rightWrist"%string)
      by (apply Hsame; simpl; auto).
    unfold decide, minDist, distLeft, distRight.
    rewrite Hnose, Hleft, Hright. reflexivity.
  - reflexivity.
Qed.

Lemma decide_deterministic_and_pure_witness :
  decide (<["leftEye"%string := at_pixel 1 2]> near_sample) = decide near_sample.
Proof.
  apply (proj1 decide_deterministic_and_pure).
  intros name [<-|[<-|[<-|[]]]]; reflexivity.
Defined.

Lemma scores_do_not_interfere_aux keypoints1 keypoints2 :
  Forall2 same_landmark keypoints1 keypoints2 ->
  collect keypoints1 = collect keypoints2
  /\ decide (collect keypoints1) = decide (collect keypoints2).
Proof.
  intros Hsame.
  assert (Hkp : collect keypoints1 = collect keypoints2)
    by (apply fold_collect_same_landmark; exact Hsame).
  rewrite Hkp. auto.
Qed.

(** C9: two outputs of the pose model that agree on parts and positions
    give the same keypoint set, hence the same outcome and the same answer,
    whatever their scores. *)
Theorem scores_do_not_interfere keypoints1 keypoints2 :
  Forall2 same_landmark keypoints1 keypoints2 ->
  collect keypoints1 = collect keypoints2
  /\ decide (collect keypoints1) = decide (collect keypoints2)
  /\ respond (decide (collect keypoints1)) = respond (decide (collect keypoints2)).
Proof.
  intros Hsame.
  assert (Hkp : collect keypoints1 = collect keypoints2)
    by (apply fold_collect_same_landmark; exact Hsame).
  rewrite Hkp. auto.
Qed.

Lemma scores_do_not_interfere_witness :
  collect (scored_sample 1) = collect (scored_sample 7)
  /\ decide (collect (scored_sample 1)) = decide (collect (scored_sample 7))
  /\ respond (decide (collect (scored_sample 1)))
     = respond (decide (collect (scored_sample 7))).
Proof.
  apply (scores_do_not_interfere (scored_sample 1) (scored_sample 7)).
  repeat constructor.
Defined.

(** The same through the whole handler: two estimators that throw alike and
    otherwise agree on parts and positions give the same answer and the same
    log. *)
Lemma pose_handler_ignores_scores
  (Buffer Image Canvas Net Exn : Type)
  (modelPromise : Exn + Net)
  (loadImage : Buffer -> Exn + Image)
  (drawOnCanvas : Image -> Exn + Canvas)
  (estimate1 estimate2 : Net -> Canvas -> Exn + list Keypoint)
  (file : option Buffer)
  (log : list (Call Buffer Image Canvas Net Exn)) :
  (forall net canvas,
      match estimate1 net canvas, estimate2 net canvas with
      | inr keypoints1, inr keypoints2 => Forall2 same_landmark keypoints1 keypoints2
      | inl error1, inl error2 => error1 = error2
      | _, _ => False
      end) ->
  pose_handler modelPromise loadImage drawOnCanvas estimate1 file log
  = pose_handler modelPromise loadImage drawOnCanvas estimate2 file log.
Proof.
  intros Hagree. destruct file as [buffer|]; [|reflexivity].
  unfold pose_handler, try_catch, bind, call, judge, ret.
  destruct modelPromise as [e|net]; [reflexivity|].
  destruct (loadImage buffer) as [e|image]; [reflexivity|].
  destruct (drawOnCanvas image) as [e|canvas]; [reflexivity|].
  specialize (Hagree net canvas).
  destruct (estimate1 net canvas) as [e1|k1], (estimate2 net canvas) as [e2|k2];
    try contradiction.
  - subst e2. reflexivity.
  - destruct (scores_do_not_interfere_aux k1 k2 Hagree) as [-> _]. reflexivity.
Qed.

(** ** The two wrist distances *)

Lemma wristDistance_nonneg wrist nose :
  finite_position nose = true ->
  match wrist with Some w => finite_position w = true | None => True end ->
  signed_as false (wristDistance wrist nose).
Proof.
  intros Hnose Hwrist. destruct wrist as [w|]; simpl.
  - apply euclideanDistance_nonneg; assumption.
  - constructor.
Qed.

Lemma finite_positions_lookup kp name :
  finite_positions kp = true -> In name tracked_parts ->
  match kp !! name with Some p => finite_position p = true | None => True end.
Proof.
  unfold finite_positions. rewrite forallb_forall. intros Hall Hin.
  specialize (Hall name Hin). destruct (kp !! name); [exact Hall|exact I].
Qed.

Lemma distances_nonneg kp nose :
  kp !! "nose"%string = Some nose -> finite_positions kp = true ->
  signed_as false (distLeft kp nose) /\ signed_as false (distRight kp nose).
Proof.
  intros Hnose Hfin.
  assert (Hn : finite_position nose = true).
  { pose proof (finite_positions_lookup kp "nose" Hfin) as H.
    rewrite Hnose in H. apply H. simpl. auto. }
  split; apply wristDistance_nonneg; try exact Hn;
    apply finite_positions_lookup; simpl; auto.
Qed.

Lemma signed_false_not_neg_zero v :
  signed_as false v -> JS.is_zero_signed true v = false.
Proof. destruct 1; reflexivity. Qed.

(** With finite coordinates [Math.min] returns the right distance when it
    is strictly smaller, and the left one otherwise. *)
Lemma minDist_cases kp nose :
  kp !! "nose"%string = Some nose -> finite_positions kp = true ->
  minDist kp nose
  = if JS.lt (distRight kp nose) (distLeft kp nose)
    then distRight kp nose else distLeft kp nose.
Proof.
  intros Hnose Hfin.
  destruct (distances_nonneg kp nose Hnose Hfin) as [HL HR].
  unfold minDist.
  rewrite Math_min_pair by (eapply signed_as_not_nan; eassumption).
  rewrite (signed_false_not_neg_zero _ HR). reflexivity.
Qed.

(** [toFixed(2)] picks the nearest multiple of 1/100: for [e < 0] the
    integer [n] satisfies [n - 1/2 <= 100 * m * 2^e < n + 1/2], here with
    both sides scaled by [2 * 2^(-e)]; for [0 <= e] the value is an integer
    and [n] is 100 times it. *)
Lemma nearest_hundredths_nearest m e :
  let n := JS.nearest_hundredths m e in
  (0 <= e -> n = 100 * (Z.pos m * 2 ^ e))
  /\ (e < 0 ->
      2 * n * 2 ^ (- e) - 2 ^ (- e) <= 200 * Z.pos m
      < 2 * n * 2 ^ (- e) + 2 ^ (- e)).
Proof.
  unfold JS.nearest_hundredths. split; intros He.
  - destruct (Z.leb_spec 0 e); lia.
  - destruct (Z.leb_spec 0 e); [lia|].
    replace (1 - e) with (Z.succ (- e)) by lia.
    rewrite Z.pow_succ_r by lia.
    assert (Hpos : 0 < 2 ^ (- e)) by (apply Z.pow_pos_nonneg; lia).
    pose proof (Z.div_mod (200 * Z.pos m + 2 ^ (- e)) (2 * 2 ^ (- e))) as Hdiv.
    pose proof (Z.mod_pos_bound (200 * Z.pos m + 2 ^ (- e)) (2 * 2 ^ (- e))) as Hmod.
    nia.
Qed.



Lemma strict_equal_lt_false a b :
  (a === b)%js = true -> JS.lt b a = false.
Proof.
  unfold JS.strict_equal, SFeqb, JS.lt, SFltb. rewrite (SFcompare_antisym a b).
  destruct (SFcompare a b) as [[]|]; simpl; congruence.
Qed.

Lemma strict_equal_not_nan a b :
  (a === b)%js = true -> not_nan a /\ not_nan b.
Proof.
  unfold JS.strict_equal, SFeqb.
  destruct a, b; simpl; try discriminate; split; reflexivity.
Qed.

Lemma strict_equal_refl v : not_nan v -> (v === v)%js = true.
Proof. intros Hv. unfold JS.strict_equal, SFeqb. rewrite SFcompare_refl; auto. Qed.

(** When the two distances are equal, the minimum is equal to the left one. *)
Lemma tie_minimum_equals_left a b :
  (a === b)%js = true -> (JS.Math_min (a :: b :: nil) === a)%js = true.
Proof.
  intros Heq. destruct (strict_equal_not_nan a b Heq) as [Ha Hb].
  rewrite (Math_min_pair a b Ha Hb), (strict_equal_lt_false a b Heq), orb_false_r.
  destruct (JS.is_zero_signed true b && JS.is_zero_signed false a) eqn:Ez.
  - apply andb_true_iff in Ez. destruct Ez as [Ezb Eza].
    destruct a as [[|]| | |], b as [[|]| | |]; try discriminate; reflexivity.
  - apply strict_equal_refl, Ha.
Qed.

(** C3: when the two distances are equal ([===], so neither is NaN),
    [closestHand] is "leftWrist"; and with finite coordinates [closestHand]
    is "rightWrist" only when the right distance is strictly smaller than
    the left one. *)
Theorem tie_prefers_leftWrist :
  (forall kp nose,
      kp !! "nose"%string = Some nose ->
      (distLeft kp nose === distRight kp nose)%js = true ->
      exists j, decide kp = inr j /\ closestHand j = "leftWrist"%string)
  /\ (forall kp nose,
         kp !! "nose"%string = Some nose ->
         finite_positions kp = true ->
         exists j, decide kp = inr j
                   /\ (closestHand j = "rightWrist"%string ->
                       JS.lt (distRight kp nose) (distLeft kp nose) = true)).
Proof.
  split.
  - intros kp nose Hnose Htie.
    eexists. split; [apply (decide_with_nose kp nose Hnose)|].
    simpl. unfold closestHandOf, minDist.
    rewrite (tie_minimum_equals_left _ _ Htie). reflexivity.
  - intros kp nose Hnose Hfin.
    eexists. split; [apply (decide_with_nose kp nose Hnose)|].
    simpl. unfold closestHandOf.
    rewrite (minDist_cases kp nose Hnose Hfin).
    destruct (distances_nonneg kp nose Hnose Hfin) as [HL _].
    destruct (JS.lt (distRight kp nose) (distLeft kp nose)); [reflexivity|].
    rewrite (strict_equal_refl _ (signed_as_not_nan _ _ HL)). discriminate.
Qed.

Lemma tie_prefers_leftWrist_witness :
  (exists j, decide tie_sample = inr j /\ closestHand j = "leftWrist"%string)
  /\ (exists j, decide far_sample = inr j
                /\ (closestHand j = "rightWrist"%string ->
                    JS.lt (distRight far_sample (at_pixel 0 0))
                          (distLeft far_sample (at_pixel 0 0)) = true)).
Proof.
  split.
  - apply (proj1 tie_prefers_leftWrist tie_sample (at_pixel 0 0)); reflexivity.
  - apply (proj2 tie_prefers_leftWrist far_sample (at_pixel 0 0)); reflexivity.
Defined.

(** The spec's tie example: both wrists 10 pixels away. *)
Example decide_tie_sample :
  decide tie_sample
  = inr {| closestHand := "leftWrist"; distance := JS.of_Z 10; accepted := true |}.
Proof. vm_compute. reflexivity. Qed.

(** ** The acceptance boundary *)

Example confidence_at_495_value :
  confidenceDecimal (JS.of_Z 495) = confidence_at_495
  /\ ACCEPTANCE_THRESHOLD = S754_finite false 7205759403792794 (-56)
  /\ JS.lt confidence_at_495 ACCEPTANCE_THRESHOLD = true.
Proof. vm_compute. auto. Qed.

(** C6, as stated, fails: a single wrist exactly 495 pixels from the nose
    gets a confidence that is not 0.1 and is not accepted. *)
Lemma boundary_495_is_rejected :
  minDist boundary_sample (at_pixel 0 0) = JS.of_Z 495
  /\ confidenceDecimal (minDist boundary_sample (at_pixel 0 0)) <> ACCEPTANCE_THRESHOLD
  /\ decide boundary_sample
     = inr {| closestHand := "leftWrist"; distance := JS.of_Z 495; accepted := false |}
  /\ ~ (exists j, decide boundary_sample = inr j /\ accepted j = true).
Proof.
  split; [vm_compute; reflexivity|].
  split; [vm_compute; discriminate|].
  split; [vm_compute; reflexivity|].
  intros [j [Hj Hacc]]. vm_compute in Hj. injection Hj as <-. discriminate Hacc.
Qed.

Example confidence_below_495_value :
  confidenceDecimal below_495 = confidence_below_495
  /\ JS.lt ACCEPTANCE_THRESHOLD confidence_below_495 = true.
Proof. vm_compute. auto. Qed.

(** No distance yields a confidence equal to the threshold: up to the
    double just below 495 the confidence is at least [confidence_below_495],
    from 495 on it is at most [confidence_at_495], and the threshold lies
    strictly between the two. *)
Lemma confidence_never_at_threshold d :
  valid_binary JS.prec JS.emax d = true ->
  confidenceDecimal d <> ACCEPTANCE_THRESHOLD.
Proof.
  intros Hv Heq.
  destruct (JS.is_nan d) eqn:En.
  { destruct d; try discriminate En. vm_compute in Heq. discriminate Heq. }
  destruct (SFleb d below_495) eqn:Hle.
  - pose proof (confidenceDecimal_mono d below_495 Hv eq_refl Hle) as Hmono.
    rewrite Heq in Hmono. vm_compute in Hmono. discriminate Hmono.
  - pose proof (above_below_495 d En Hle) as Hge.
    pose proof (confidenceDecimal_mono (JS.of_Z 495) d eq_refl Hv Hge) as Hmono.
    rewrite Heq in Hmono. vm_compute in Hmono. discriminate Hmono.
Qed.

(** [>=] is [>] or [===]. *)
Lemma meetsThreshold_cases c :
  meetsThreshold c
  = JS.lt ACCEPTANCE_THRESHOLD c || (c === ACCEPTANCE_THRESHOLD)%js.
Proof.
  unfold meetsThreshold, JS.ge, JS.lt, SFltb, JS.strict_equal, SFeqb.
  rewrite (SFcompare_antisym c ACCEPTANCE_THRESHOLD).
  destruct (SFcompare c ACCEPTANCE_THRESHOLD) as [[]|]; reflexivity.
Qed.

Lemma ACCEPTANCE_THRESHOLD_finite :
  ACCEPTANCE_THRESHOLD = S754_finite false 7205759403792794 (-56).
Proof. vm_compute. reflexivity. Qed.

(** Only a positive finite Number with the same mantissa and exponent is
    [===] to a positive finite Number. *)
Lemma strict_equal_finite c m e :
  (c === S754_finite false m e)%js = true -> c = S754_finite false m e.
Proof.
  destruct c as [[|]|[|]| |[|] m' e']; try discriminate.
  unfold JS.strict_equal, SFeqb. cbn [SFcompare].
  destruct (Z.compare_spec e' e) as [->|?|?]; try discriminate.
  fold (Pos.compare m' m).
  destruct (Pos.compare_spec m' m) as [->|?|?]; try discriminate.
  reflexivity.
Qed.

(** Only the threshold itself is [===] to the threshold. *)
Lemma strict_equal_threshold c :
  (c === ACCEPTANCE_THRESHOLD)%js = true -> c = ACCEPTANCE_THRESHOLD.
Proof. rewrite ACCEPTANCE_THRESHOLD_finite. apply strict_equal_finite. Qed.

(** C6, amended: a single wrist whose distance to the nose is exactly 495
    yields the confidence [1 - 495 / 550] as binary64 arithmetic computes it,
    which lies strictly below [ACCEPTANCE_THRESHOLD], so [accepted] is false
    and the reported distance is 495.  The comparison of line 78 is
    inclusive: [accepted] is that comparison applied to the confidence, and
    it holds of the threshold itself and of every confidence [===] to it;
    but no distance yields exactly that confidence, so on distances it
    agrees with the strict comparison, and the accepted distances are
    exactly those up to the double just below 495. *)
Theorem boundary_495_confidence kp nose wrist :
  kp !! "nose"%string = Some nose ->
  (kp !! "leftWrist"%string = Some wrist /\ kp !! "rightWrist"%string = None)
  \/ (kp !! "leftWrist"%string = None /\ kp !! "rightWrist"%string = Some wrist) ->
  euclideanDistance wrist nose = JS.of_Z 495 ->
  confidenceDecimal (minDist kp nose) = confidence_at_495
  /\ JS.lt (confidenceDecimal (minDist kp nose)) ACCEPTANCE_THRESHOLD = true
  /\ (exists j, decide kp = inr j
                /\ distance j = JS.of_Z 495 /\ accepted j = false)
  /\ (forall d, acceptedOf d = meetsThreshold (confidenceDecimal d))
  /\ meetsThreshold ACCEPTANCE_THRESHOLD = true
  /\ (forall c, (c === ACCEPTANCE_THRESHOLD)%js = true -> meetsThreshold c = true)
  /\ (forall c, JS.lt c ACCEPTANCE_THRESHOLD = true -> meetsThreshold c = false)
  /\ (forall d, valid_binary JS.prec JS.emax d = true ->
                confidenceDecimal d <> ACCEPTANCE_THRESHOLD
                /\ acceptedOf d = JS.lt ACCEPTANCE_THRESHOLD (confidenceDecimal d))
  /\ (forall d, valid_binary JS.prec JS.emax d = true ->
                acceptedOf d = SFleb d below_495).
Proof.
  intros Hnose Hwrist Hdist.
  assert (Hmin : minDist kp nose = JS.of_Z 495).
  { unfold minDist, distLeft, distRight.
    destruct Hwrist as [[-> ->]|[-> ->]]; simpl; rewrite Hdist; reflexivity. }
  rewrite (decide_with_nose kp nose Hnose), Hmin.
  split; [vm_compute; reflexivity|].
  split; [vm_compute; reflexivity|].
  split; [eexists; split; [reflexivity|]; split; vm_compute; reflexivity|].
  split; [reflexivity|].
  split; [vm_compute; reflexivity|].
  split; [intros c Hc; rewrite meetsThreshold_cases, Hc; apply orb_true_r|].
  split; [|split].
  - intros c Hc. unfold meetsThreshold, JS.ge. unfold JS.lt, SFltb in Hc.
    destruct (SFcompare c ACCEPTANCE_THRESHOLD) as [[]|]; try discriminate Hc.
    reflexivity.
  - intros d Hv. pose proof (confidence_never_at_threshold d Hv) as Hne.
    split; [exact Hne|].
    change (acceptedOf d) with (meetsThreshold (confidenceDecimal d)).
    rewrite meetsThreshold_cases.
    destruct (JS.lt ACCEPTANCE_THRESHOLD (confidenceDecimal d)); [reflexivity|].
    cbn [orb].
    destruct (confidenceDecimal d === ACCEPTANCE_THRESHOLD)%js eqn:Heq;
      [|reflexivity].
    destruct (Hne (strict_equal_threshold _ Heq)).
  - apply acceptedOf_threshold.
Qed.

Lemma boundary_495_confidence_witness :
  confidenceDecimal (minDist boundary_sample (at_pixel 0 0)) = confidence_at_495
  /\ JS.lt (confidenceDecimal (minDist boundary_sample (at_pixel 0 0)))
           ACCEPTANCE_THRESHOLD = true
  /\ (exists j, decide boundary_sample = inr j
                /\ distance j = JS.of_Z 495 /\ accepted j = false)
  /\ (forall d, acceptedOf d = meetsThreshold (confidenceDecimal d))
  /\ meetsThreshold ACCEPTANCE_THRESHOLD = true
  /\ (forall c, (c === ACCEPTANCE_THRESHOLD)%js = true -> meetsThreshold c = true)
  /\ (forall c, JS.lt c ACCEPTANCE_THRESHOLD = true -> meetsThreshold c = false)
  /\ (forall d, valid_binary JS.prec JS.emax d = true ->
                confidenceDecimal d <> ACCEPTANCE_THRESHOLD
                /\ acceptedOf d = JS.lt ACCEPTANCE_THRESHOLD (confidenceDecimal d))
  /\ (forall d, valid_binary JS.prec JS.emax d = true ->
                acceptedOf d = SFleb d below_495).
Proof.
  apply (boundary_495_confidence boundary_sample (at_pixel 0 0) (at_pixel 495 0)).
  - reflexivity.
  - left. split; reflexivity.
  - vm_compute. reflexivity.
Defined.

(** ** Monotonicity *)

(** C10: the confidence decimal does not increase when the minimum distance
    grows; from distance zero on it lies between 0 and 1; and of two keypoint
    sets with a nose, the one with the smaller or equal minimum distance is
    accepted whenever the other is.  A distance is any Number that is a
    binary64 value ([valid_binary]); the order [SFleb] holds of no NaN. *)
Theorem confidence_monotone_and_bounded :
  (forall d1 d2,
      valid_binary JS.prec JS.emax d1 = true ->
      valid_binary JS.prec JS.emax d2 = true ->
      SFleb d1 d2 = true ->
      SFleb (confidenceDecimal d2) (confidenceDecimal d1) = true)
  /\ (forall d,
         valid_binary JS.prec JS.emax d = true ->
         SFleb (JS.of_Z 0) d = true ->
         SFleb (JS.of_Z 0) (confidenceDecimal d) = true
         /\ SFleb (confidenceDecimal d) (JS.of_Z 1) = true)
  /\ (forall kp1 kp2 nose1 nose2,
         kp1 !! "nose"%string = Some nose1 ->
         kp2 !! "nose"%string = Some nose2 ->
         SFleb (minDist kp1 nose1) (minDist kp2 nose2) = true ->
         exists j1 j2,
           decide kp1 = inr j1 /\ decide kp2 = inr j2
           /\ (accepted j2 = true -> accepted j1 = true)).
Proof.
  split; [exact confidenceDecimal_mono|]. split; [exact confidenceDecimal_range|].
  intros kp1 kp2 nose1 nose2 Hnose1 Hnose2 Hle.
  eexists _, _.
  split; [apply (decide_with_nose kp1 nose1 Hnose1)|].
  split; [apply (decide_with_nose kp2 nose2 Hnose2)|].
  cbn [accepted].
  apply acceptedOf_downward; try apply minDist_valid. exact Hle.
Qed.

Lemma confidence_monotone_and_bounded_witness :
  SFleb (confidenceDecimal (JS.of_Z 495)) (confidenceDecimal (JS.of_Z 20)) = true
  /\ (SFleb (JS.of_Z 0) (confidenceDecimal (JS.of_Z 600)) = true
      /\ SFleb (confidenceDecimal (JS.of_Z 600)) (JS.of_Z 1) = true)
  /\ (exists j1 j2,
         decide near_sample = inr j1 /\ decide far_sample = inr j2
         /\ (accepted j2 = true -> accepted j1 = true)).
Proof.
  split; [|split].
  - apply (proj1 confidence_monotone_and_bounded (JS.of_Z 20) (JS.of_Z 495));
      reflexivity.
  - apply (proj1 (proj2 confidence_monotone_and_bounded) (JS.of_Z 600)); reflexivity.
  - apply (proj2 (proj2 confidence_monotone_and_bounded)
             near_sample far_sample (at_pixel 100 100) (at_pixel 0 0));
      reflexivity.
Defined.

(** * Further properties of the code *)

(** ** The keypoint filter (lines 51-56) *)

Lemma collect_step_lookup kp point name :
  collect_step kp point !! name
  = if includes tracked_parts name && String.eqb (part point) name
    then Some (position point) else kp !! name.
Proof.
  unfold collect_step.
  destruct (String.eqb_spec (part point) name) as [Heq|Hne].
  - subst name. rewrite andb_true_r.
    destruct (includes tracked_parts (part point)); [apply lookup_insert_eq|reflexivity].
  - rewrite andb_false_r.
    destruct (includes tracked_parts (part point)); [|reflexivity].
    apply lookup_insert_ne. exact Hne.
Qed.

Lemma fold_collect_lookup keypoints kp name :
  fold_left collect_step keypoints kp !! name
  = if includes tracked_parts name
    then match last_named name keypoints with
         | Some p => Some p
         | None => kp !! name
         end
    else kp !! name.
Proof.
  revert kp. induction keypoints as [|point rest IH]; intros kp;
    cbn [fold_left last_named].
  - destruct (includes tracked_parts name); reflexivity.
  - rewrite IH, collect_step_lookup.
    destruct (includes tracked_parts name); cbn [andb]; [|reflexivity].
    destruct (last_named name rest); [reflexivity|].
    destruct (String.eqb (part point) name); reflexivity.
Qed.

Lemma collect_lookup_if keypoints name :
  collect keypoints !! name
  = if includes tracked_parts name then last_named name keypoints else None.
Proof.
  unfold collect. rewrite fold_collect_lookup, lookup_empty.
  destruct (includes tracked_parts name); [|reflexivity].
  destruct (last_named name keypoints); reflexivity.
Qed.

Lemma includes_tracked name :
  includes tracked_parts name = true <-> In name tracked_parts.
Proof.
  unfold includes. rewrite existsb_exists. split.
  - intros [n [Hin Heq]]. apply String.eqb_eq in Heq. subst. exact Hin.
  - intros Hin. exists name. split; [exact Hin|apply String.eqb_refl].
Qed.

Lemma last_named_In name keypoints p :
  last_named name keypoints = Some p ->
  exists point, In point keypoints /\ part point = name /\ position point = p.
Proof.
  induction keypoints as [|point rest IH]; cbn [last_named]; [discriminate|].
  destruct (last_named name rest) as [q|].
  - intros Hlast. destruct (IH Hlast) as (k & Hin & Hk). exists k. simpl. auto.
  - destruct (String.eqb_spec (part point) name) as [Heq|Hne]; [|discriminate].
    intros [= <-]. exists point. simpl. auto.
Qed.

Lemma last_named_None name keypoints :
  last_named name keypoints = None <->
  forall point, In point keypoints -> part point <> name.
Proof.
  induction keypoints as [|point rest IH]; cbn [last_named].
  - split; [intros _ k []|reflexivity].
  - destruct (last_named name rest) as [q|].
    + split; [discriminate|]. intros H.
      assert (Hrest : @None Vector2D = Some q); [|discriminate Hrest].
      symmetry. apply IH. intros k Hk. apply H. simpl. auto.
    + destruct (String.eqb_spec (part point) name) as [Heq|Hne].
      * split; [discriminate|]. intros H. destruct (H point); simpl; auto.
      * split; [|reflexivity]. intros _ k [<-|Hk]; [exact Hne|].
        apply (proj1 IH); auto.
Qed.

Lemma last_named_app name ks1 ks2 :
  last_named name (ks1 ++ ks2)
  = match last_named name ks2 with
    | Some p => Some p
    | None => last_named name ks1
    end.
Proof.
  induction ks1 as [|point rest IH]; cbn [app last_named].
  - destruct (last_named name ks2); reflexivity.
  - rewrite IH. destruct (last_named name ks2); reflexivity.
Qed.

Lemma last_named_unique name keypoints point :
  NoDup (map part keypoints) -> In point keypoints -> part point = name ->
  last_named name keypoints = Some (position point).
Proof.
  induction keypoints as [|k rest IH]; cbn [map last_named]; [contradiction|].
  intros Hnd Hin Hpart. apply NoDup_cons in Hnd as [Hnotin Hnd].
  destruct Hin as [->|Hin].
  - assert (Hnone : last_named name rest = None).
    { apply last_named_None. intros k Hk Hkn. apply Hnotin.
      rewrite Hpart, <- Hkn. apply list_elem_of_In, in_map, Hk. }
    rewrite Hnone. rewrite (proj2 (String.eqb_eq _ _) Hpart). reflexivity.
  - rewrite (IH Hnd Hin Hpart). reflexivity.
Qed.

(** X1: after the filter, [kp] holds for each of the three tracked names
    the position of the last keypoint of the model's output with that part,
    when there is one, and holds nothing under any other name. *)
Theorem collect_keeps_last_tracked keypoints name :
  (In name tracked_parts ->
   collect keypoints !! name = last_named name keypoints)
  /\ (~ In name tracked_parts -> collect keypoints !! name = None).
Proof.
  rewrite collect_lookup_if. split; intros Hin.
  - apply includes_tracked in Hin. rewrite Hin. reflexivity.
  - destruct (includes tracked_parts name) eqn:E; [|reflexivity].
    apply includes_tracked in E. contradiction.
Qed.

(** X2: every entry of [kp] is under one of the three tracked names and is
    the position of a keypoint of the model's output with that part: the
    filter invents nothing. *)
Theorem collect_only_tracked keypoints name p :
  collect keypoints !! name = Some p ->
  In name tracked_parts
  /\ exists point, In point keypoints /\ part point = name /\ position point = p.
Proof.
  rewrite collect_lookup_if.
  destruct (includes tracked_parts name) eqn:E; [|discriminate].
  intros Hlast. split; [apply includes_tracked; exact E|].
  apply last_named_In. exact Hlast.
Qed.

Lemma collect_only_tracked_witness :
  In "leftWrist"%string tracked_parts
  /\ exists point,
       In point (scored_sample 1) /\ part point = "leftWrist"%string
       /\ position point = at_pixel 120 100.
Proof.
  apply (collect_only_tracked (scored_sample 1) "leftWrist" (at_pixel 120 100)).
  reflexivity.
Defined.

(** X3: filtering a list in two pieces: the entries of the later piece
    override those of the earlier one. *)
Theorem collect_app ks1 ks2 :
  collect (ks1 ++ ks2) = collect ks2 ∪ collect ks1.
Proof.
  apply map_eq. intros name.
  rewrite lookup_union, !collect_lookup_if, last_named_app.
  destruct (includes tracked_parts name); [|reflexivity].
  destruct (last_named name ks2), (last_named name ks1); reflexivity.
Qed.

(** X4: when no part occurs twice in the model's output, the order of the
    keypoints does not matter to the filter. *)
Theorem collect_permutation ks1 ks2 :
  NoDup (map part ks1) -> Permutation ks1 ks2 -> collect ks1 = collect ks2.
Proof.
  intros Hnd Hperm.
  assert (Hnd2 : NoDup (map part ks2)).
  { assert (Hp : Permutation (map part ks1) (map part ks2))
      by (apply Permutation_map; exact Hperm).
    rewrite <- Hp. exact Hnd. }
  apply map_eq. intros name. rewrite !collect_lookup_if.
  destruct (includes tracked_parts name); [|reflexivity].
  destruct (last_named name ks1) as [p|] eqn:E1.
  - destruct (last_named_In name ks1 p E1) as (k & Hin & Hpart & <-).
    symmetry. apply last_named_unique; try assumption.
    apply list_elem_of_In. rewrite <- Hperm. apply list_elem_of_In. exact Hin.
  - symmetry. apply last_named_None. intros k Hk.
    apply (proj1 (last_named_None name ks1) E1).
    apply list_elem_of_In. rewrite Hperm. apply list_elem_of_In. exact Hk.
Qed.

Lemma collect_permutation_witness :
  collect (scored_sample 1) = collect (reordered_sample 1).
Proof.
  apply (collect_permutation (scored_sample 1) (reordered_sample 1)).
  - apply (bool_decide_unpack _). vm_compute. exact I.
  - apply perm_swap.
Defined.

(** X5: two outputs of the model are filtered to the same [kp] exactly
    when, for each of the three tracked names, their last keypoints of that
    part sit at the same position (or both have none); the answer then is the
    same too.  Keypoints of other parts, and all but the last of a part, do
    not matter. *)
Theorem collect_depends_on_last_tracked keypoints1 keypoints2 :
  (collect keypoints1 = collect keypoints2
   <-> forall name, In name tracked_parts ->
                    last_named name keypoints1 = last_named name keypoints2)
  /\ ((forall name, In name tracked_parts ->
                    last_named name keypoints1 = last_named name keypoints2) ->
      respond (decide (collect keypoints1)) = respond (decide (collect keypoints2))).
Proof.
  assert (Hiff : collect keypoints1 = collect keypoints2
                 <-> forall name, In name tracked_parts ->
                       last_named name keypoints1 = last_named name keypoints2).
  { split.
    - intros Heq name Hin. apply includes_tracked in Hin.
      pose proof (collect_lookup_if keypoints1 name) as H1.
      pose proof (collect_lookup_if keypoints2 name) as H2.
      rewrite Hin in H1, H2. rewrite <- H1, <- H2, Heq. reflexivity.
    - intros Hsame. apply map_eq. intros name. rewrite !collect_lookup_if.
      destruct (includes tracked_parts name) eqn:E; [|reflexivity].
      apply Hsame, includes_tracked, E. }
  split; [exact Hiff|].
  intros Hsame. apply Hiff in Hsame. rewrite Hsame. reflexivity.
Qed.

(** ** [euclideanDistance] (lines 28-30) *)

Lemma binary_normalize_opp m e :
  m <> 0 ->
  binary_normalize JS.prec JS.emax (- m) e false
  = SFopp (binary_normalize JS.prec JS.emax m e false).
Proof.
  intros Hm. destruct m as [|p|p]; try contradiction; cbn [Z.opp binary_normalize].
  - apply binary_round_opp.
  - rewrite binary_round_opp, SFopp_involutive. reflexivity.
Qed.

(** Exchanging the operands of a subtraction negates the result, unless
    both results are +0. *)
Lemma sub_swap a b :
  JS.sub b a = SFopp (JS.sub a b)
  \/ (JS.sub a b = S754_zero false /\ JS.sub b a = S754_zero false).
Proof.
  destruct a as [sa|sa| |sa ma ea], b as [sb|sb| |sb mb eb];
    unfold JS.sub, SFsub; cbn [SFopp];
    try (left; reflexivity);
    try (destruct sa, sb; (left; reflexivity) || (right; split; reflexivity)).
  rewrite (Z.min_comm eb ea).
  set (X := cond_Zopp sa (Z.pos (fst (shl_align ma ea (Z.min ea eb))))).
  set (Y := cond_Zopp sb (Z.pos (fst (shl_align mb eb (Z.min ea eb))))).
  destruct (Z.eq_dec (X - Y) 0) as [E|E].
  - right. replace (Y - X) with 0 by lia. rewrite E. split; reflexivity.
  - left. replace (Y - X) with (- (X - Y)) by lia.
    apply binary_normalize_opp. exact E.
Qed.

Lemma pow2_opp v : JS.pow2 (SFopp v) = JS.pow2 v.
Proof.
  destruct v as [s|s| |s m e]; unfold JS.pow2, JS.mul, SFmul; cbn [SFopp];
    try reflexivity; destruct s; reflexivity.
Qed.

Lemma pow2_sub_swap a b : JS.pow2 (JS.sub b a) = JS.pow2 (JS.sub a b).
Proof.
  destruct (sub_swap a b) as [->|[-> ->]]; [apply pow2_opp|reflexivity].
Qed.

Lemma sub_self v : is_finite v = true -> JS.sub v v = S754_zero false.
Proof.
  destruct v as [s|s| |s m e]; try discriminate; intros _; unfold JS.sub, SFsub.
  - destruct s; reflexivity.
  - rewrite Z.sub_diag. reflexivity.
Qed.

Lemma pow2_nan_or_nonneg v : nan_or_nonneg (JS.pow2 v).
Proof.
  destruct (JS.is_nan v) eqn:E.
  - destruct v; try discriminate. left. reflexivity.
  - right. apply pow2_nonneg. exact E.
Qed.

Lemma add_nan_or_nonneg a b :
  nan_or_nonneg a -> nan_or_nonneg b -> nan_or_nonneg (JS.add a b).
Proof.
  intros [->|Ha] [->|Hb].
  - left. reflexivity.
  - left. reflexivity.
  - left. destruct a; reflexivity.
  - right. apply add_nonneg; assumption.
Qed.

Lemma sqrt_nan_or_nonneg v : nan_or_nonneg v -> nan_or_nonneg (JS.Math_sqrt v).
Proof.
  intros [->|Hv]; [left; reflexivity|right; apply sqrt_nonneg, Hv].
Qed.

Lemma euclideanDistance_nan_or_nonneg a b : nan_or_nonneg (euclideanDistance a b).
Proof.
  unfold euclideanDistance.
  apply sqrt_nan_or_nonneg, add_nan_or_nonneg; apply pow2_nan_or_nonneg.
Qed.

(** X6: the distance is symmetric, bit for bit, whatever the coordinates
    (NaN and infinities included). *)
Theorem euclideanDistance_symmetric a b :
  euclideanDistance a b = euclideanDistance b a.
Proof.
  unfold euclideanDistance.
  rewrite (pow2_sub_swap (x b) (x a)), (pow2_sub_swap (y b) (y a)). reflexivity.
Qed.

(** X7: a point with finite coordinates is at distance +0 from itself. *)
Theorem euclideanDistance_self a :
  finite_position a = true -> euclideanDistance a a = JS.of_Z 0.
Proof.
  unfold finite_position. rewrite andb_true_iff. intros [Hx Hy].
  unfold euclideanDistance. rewrite (sub_self _ Hx), (sub_self _ Hy). reflexivity.
Qed.

Lemma euclideanDistance_self_witness :
  euclideanDistance (at_pixel 3 4) (at_pixel 3 4) = JS.of_Z 0.
Proof. apply (euclideanDistance_self (at_pixel 3 4)). reflexivity. Defined.

(** X8: whatever the coordinates, the distance is a valid double that is
    never below zero and never -0; it is NaN only when a coordinate is not
    finite. *)
Theorem euclideanDistance_never_negative a b :
  valid_binary JS.prec JS.emax (euclideanDistance a b) = true
  /\ JS.lt (euclideanDistance a b) (JS.of_Z 0) = false
  /\ euclideanDistance a b <> S754_zero true
  /\ (finite_position a = true -> finite_position b = true ->
      not_nan (euclideanDistance a b)).
Proof.
  split; [apply Math_sqrt_valid|].
  pose proof (euclideanDistance_nan_or_nonneg a b) as H.
  split; [|split].
  - destruct H as [->|H]; [reflexivity|]. destruct H; reflexivity.
  - destruct H as [->|H]; [discriminate|]. destruct H; discriminate.
  - intros Ha Hb. eapply signed_as_not_nan, euclideanDistance_nonneg; assumption.
Qed.

(** ** The decision (lines 58-79) *)

Lemma wristDistance_nan_or_nonneg wrist nose :
  nan_or_nonneg (wristDistance wrist nose).
Proof.
  destruct wrist as [w|]; simpl.
  - apply euclideanDistance_nan_or_nonneg.
  - right. constructor.
Qed.

Lemma min_from_nan lowest args :
  In S754_nan args -> JS.min_from lowest args = S754_nan.
Proof.
  revert lowest. induction args as [|n rest IH]; intros lowest; [contradiction|].
  intros [->|Hin]; cbn [JS.min_from]; [reflexivity|].
  destruct (JS.is_nan n); [reflexivity|].
  destruct (JS.is_zero_signed true n && JS.is_zero_signed false lowest); [apply IH, Hin|].
  destruct (JS.lt n lowest); apply IH, Hin.
Qed.

(** A minimum that is not NaN comes from two distances that are not NaN,
    and is the right one when that is strictly smaller, else the left. *)
Lemma minDist_not_nan kp nose :
  not_nan (minDist kp nose) ->
  signed_as false (distLeft kp nose) /\ signed_as false (distRight kp nose)
  /\ minDist kp nose
     = if JS.lt (distRight kp nose) (distLeft kp nose)
       then distRight kp nose else distLeft kp nose.
Proof.
  intros Hmin. unfold minDist in *.
  destruct (wristDistance_nan_or_nonneg (kp !! "leftWrist"%string) nose) as [EL|HL].
  { exfalso. unfold distLeft in Hmin. rewrite EL in Hmin. discriminate Hmin. }
  destruct (wristDistance_nan_or_nonneg (kp !! "rightWrist"%string) nose) as [ER|HR].
  { exfalso. unfold JS.Math_min in Hmin. rewrite min_from_nan in Hmin; [discriminate|].
    unfold distRight. rewrite ER. simpl. auto. }
  split; [exact HL|]. split; [exact HR|].
  unfold distLeft, distRight.
  rewrite Math_min_pair by (eapply signed_as_not_nan; eassumption).
  rewrite (signed_false_not_neg_zero _ HR). reflexivity.
Qed.

Lemma acceptedOf_not_nan d : acceptedOf d = true -> not_nan d.
Proof. destruct d; try reflexivity. discriminate. Qed.

Lemma lt_Infinity_l v : JS.lt JS.Infinity v = false.
Proof. destruct v as [s|[|]| |[|] m e]; reflexivity. Qed.

Lemma wristDistance_present wrist nose :
  wristDistance wrist nose <> JS.Infinity ->
  exists w, wrist = Some w /\ euclideanDistance w nose = wristDistance wrist nose.
Proof.
  destruct wrist as [w|]; simpl; intros H; [exists w; auto|contradiction].
Qed.

Lemma lt_not_strict_equal a b : JS.lt a b = true -> (a === b)%js = false.
Proof.
  unfold JS.strict_equal, SFeqb, JS.lt, SFltb.
  destruct (SFcompare a b) as [[]|]; try discriminate; reflexivity.
Qed.

(** An accepted minimum is the distance of the wrist [closestHandOf] names,
    which was detected. *)
Lemma accepted_minDist_wrist kp nose :
  acceptedOf (minDist kp nose) = true ->
  exists w,
    kp !! closestHandOf (minDist kp nose) (distLeft kp nose) = Some w
    /\ euclideanDistance w nose = minDist kp nose
    /\ SFleb (minDist kp nose) below_495 = true.
Proof.
  intros Hacc.
  pose proof (acceptedOf_not_nan _ Hacc) as Hnn.
  destruct (minDist_not_nan kp nose Hnn) as (HL & HR & Hmin).
  rewrite (acceptedOf_threshold _ (minDist_valid kp nose)) in Hacc.
  destruct (JS.lt (distRight kp nose) (distLeft kp nose)) eqn:Hlt.
  - assert (Hhand : closestHandOf (minDist kp nose) (distLeft kp nose)
                    = "rightWrist"%string)
      by (unfold closestHandOf; rewrite Hmin, (lt_not_strict_equal _ _ Hlt);
          reflexivity).
    rewrite Hhand.
    destruct (wristDistance_present (kp !! "rightWrist"%string) nose) as (w & Hw & Ew).
    { intros E. unfold distRight in Hlt. rewrite E, lt_Infinity_l in Hlt. discriminate. }
    exists w. split; [exact Hw|]. split; [|exact Hacc].
    rewrite Ew, Hmin. reflexivity.
  - assert (Hhand : closestHandOf (minDist kp nose) (distLeft kp nose)
                    = "leftWrist"%string)
      by (unfold closestHandOf;
          rewrite Hmin, (strict_equal_refl _ (signed_as_not_nan _ _ HL));
          reflexivity).
    rewrite Hhand.
    destruct (wristDistance_present (kp !! "leftWrist"%string) nose) as (w & Hw & Ew).
    { intros E. rewrite Hmin in Hacc. unfold distLeft in Hacc. rewrite E in Hacc.
      discriminate Hacc. }
    exists w. split; [exact Hw|]. split; [|exact Hacc].
    rewrite Hmin. exact Ew.
Qed.

(** X9: an accepted Judgment names a wrist that was detected, whatever the
    coordinates: [closestHand] is then a key of [kp], and the minimum is
    that wrist's distance, at most 494.99999999999994. *)
Theorem accepted_names_detected_wrist kp nose j :
  kp !! "nose"%string = Some nose ->
  decide kp = inr j ->
  accepted j = true ->
  exists w,
    kp !! closestHand j = Some w
    /\ euclideanDistance w nose = minDist kp nose
    /\ SFleb (minDist kp nose) below_495 = true.
Proof.
  intros Hnose Hdec Hacc.
  rewrite (decide_with_nose kp nose Hnose) in Hdec. injection Hdec as <-.
  cbn [accepted closestHand] in *.
  apply accepted_minDist_wrist. exact Hacc.
Qed.

Lemma accepted_names_detected_wrist_witness :
  exists w,
    near_sample !! closestHand near_judgment = Some w
    /\ euclideanDistance w (at_pixel 100 100) = minDist near_sample (at_pixel 100 100)
    /\ SFleb (minDist near_sample (at_pixel 100 100)) below_495 = true.
Proof.
  apply (accepted_names_detected_wrist near_sample (at_pixel 100 100) near_judgment);
    reflexivity.
Defined.

Lemma within_threshold_present wrist nose :
  SFleb (wristDistance wrist nose) below_495 = true <->
  exists w, wrist = Some w /\ SFleb (euclideanDistance w nose) below_495 = true.
Proof.
  destruct wrist as [w|]; simpl.
  - split; [intros H; exists w; auto|intros (w' & [= <-] & H); exact H].
  - split; [discriminate|intros (w' & [=] & _)].
Qed.

Lemma SFleb_min_threshold a b t :
  signed_as false a -> signed_as false b -> signed_as false t ->
  SFleb (if JS.lt b a then b else a) t = SFleb a t || SFleb b t.
Proof.
  intros Ha Hb Ht.
  pose proof (signed_as_not_nan _ _ Ha) as Hna.
  pose proof (signed_as_not_nan _ _ Hb) as Hnb.
  destruct (JS.lt b a) eqn:Hlt.
  - destruct (SFleb a t) eqn:Eat; [|reflexivity]. simpl.
    apply (SFleb_trans_nonneg b a t); try assumption. apply lt_le, Hlt.
  - destruct (SFleb a t) eqn:Eat; [reflexivity|]. simpl.
    destruct (SFleb b t) eqn:Ebt; [|reflexivity].
    rewrite <- Eat. apply (SFleb_trans_nonneg a b t); try assumption.
    apply lt_false_le; assumption.
Qed.

(** X10: with finite coordinates, a pose is accepted exactly when a detected
    wrist lies within 494.99999999999994 of the nose. *)
Theorem accepted_iff_wrist_within_threshold kp nose j :
  kp !! "nose"%string = Some nose ->
  finite_positions kp = true ->
  decide kp = inr j ->
  accepted j = true <->
  (exists w, kp !! "leftWrist"%string = Some w
             /\ SFleb (euclideanDistance w nose) below_495 = true)
  \/ (exists w, kp !! "rightWrist"%string = Some w
                /\ SFleb (euclideanDistance w nose) below_495 = true).
Proof.
  intros Hnose Hfin Hdec.
  rewrite (decide_with_nose kp nose Hnose) in Hdec. injection Hdec as <-.
  cbn [accepted].
  rewrite (acceptedOf_threshold _ (minDist_valid kp nose)).
  rewrite (minDist_cases kp nose Hnose Hfin).
  destruct (distances_nonneg kp nose Hnose Hfin) as [HL HR].
  rewrite (SFleb_min_threshold _ _ _ HL HR) by constructor.
  rewrite orb_true_iff. unfold distLeft, distRight.
  rewrite !within_threshold_present. reflexivity.
Qed.

Lemma accepted_iff_wrist_within_threshold_witness :
  accepted near_judgment = true <->
  (exists w, near_sample !! "leftWrist"%string = Some w
             /\ SFleb (euclideanDistance w (at_pixel 100 100)) below_495 = true)
  \/ (exists w, near_sample !! "rightWrist"%string = Some w
                /\ SFleb (euclideanDistance w (at_pixel 100 100)) below_495 = true).
Proof.
  apply (accepted_iff_wrist_within_threshold near_sample (at_pixel 100 100)
           near_judgment);
    reflexivity.
Defined.

(** X11: with finite coordinates, [closestHand] is "rightWrist" exactly
    when the right wrist is detected and strictly closer than the left one
    (an absent left wrist counting as Infinity); otherwise it is
    "leftWrist". *)
Theorem closestHand_right_iff kp nose j :
  kp !! "nose"%string = Some nose ->
  finite_positions kp = true ->
  decide kp = inr j ->
  (closestHand j = "rightWrist"%string <->
   exists r, kp !! "rightWrist"%string = Some r
             /\ JS.lt (euclideanDistance r nose) (distLeft kp nose) = true)
  /\ (closestHand j <> "rightWrist"%string -> closestHand j = "leftWrist"%string).
Proof.
  intros Hnose Hfin Hdec.
  rewrite (decide_with_nose kp nose Hnose) in Hdec. injection Hdec as <-.
  cbn [closestHand]. unfold closestHandOf.
  rewrite (minDist_cases kp nose Hnose Hfin).
  destruct (distances_nonneg kp nose Hnose Hfin) as [HL HR].
  destruct (JS.lt (distRight kp nose) (distLeft kp nose)) eqn:Hlt.
  - rewrite (lt_not_strict_equal _ _ Hlt). split; [|intros H; contradiction].
    split; [intros _|reflexivity].
    unfold distRight in Hlt.
    destruct (kp !! "rightWrist"%string) as [r|]; simpl in Hlt.
    + exists r. auto.
    + rewrite lt_Infinity_l in Hlt. discriminate.
  - rewrite (strict_equal_refl _ (signed_as_not_nan _ _ HL)).
    split; [|reflexivity]. split; [discriminate|].
    intros (r & Hr & Hlt'). unfold distRight in Hlt. rewrite Hr in Hlt. simpl in Hlt.
    congruence.
Qed.

Lemma closestHand_right_iff_witness :
  (closestHand far_judgment = "rightWrist"%string <->
   exists r, far_sample !! "rightWrist"%string = Some r
             /\ JS.lt (euclideanDistance r (at_pixel 0 0))
                      (distLeft far_sample (at_pixel 0 0)) = true)
  /\ (closestHand far_judgment <> "rightWrist"%string ->
      closestHand far_judgment = "leftWrist"%string).
Proof.
  apply (closestHand_right_iff far_sample (at_pixel 0 0) far_judgment); reflexivity.
Defined.

Lemma keypoint_set_lookup nose left right :
  keypoint_set nose left right !! "nose"%string = nose
  /\ keypoint_set nose left right !! "leftWrist"%string = left
  /\ keypoint_set nose left right !! "rightWrist"%string = right.
Proof.
  unfold keypoint_set.
  destruct nose, left, right; repeat split;
    repeat (rewrite lookup_insert_eq || (rewrite lookup_insert_ne by discriminate));
    try reflexivity; apply lookup_empty.
Qed.

Lemma compare_eq_nonneg a b :
  signed_as false a -> signed_as false b -> SFcompare a b = Some Eq -> a = b.
Proof.
  intros [| |ma ea] [| |mb eb]; simpl; intros H; try discriminate; try reflexivity.
  destruct (Z.compare_spec ea eb) as [->|?|?]; try discriminate.
  injection H as H. fold (Pos.compare ma mb) in H. apply Pos.compare_eq in H.
  subst. reflexivity.
Qed.

Lemma min_pair_comm a b :
  signed_as false a -> signed_as false b ->
  (if JS.lt b a then b else a) = (if JS.lt a b then a else b).
Proof.
  intros Ha Hb. unfold JS.lt, SFltb. rewrite (SFcompare_antisym a b).
  destruct (SFcompare a b) as [[]|] eqn:E; simpl; try reflexivity.
  - apply compare_eq_nonneg; assumption.
  - destruct Ha, Hb; discriminate E.
Qed.

Lemma swapWrists_finite kp nose :
  kp !! "nose"%string = Some nose ->
  finite_positions kp = true -> finite_positions (swapWrists kp) = true.
Proof.
  intros Hnose Hfin.
  destruct (keypoint_set_lookup (kp !! "nose"%string) (kp !! "rightWrist"%string)
              (kp !! "leftWrist"%string)) as (Sn & Sl & Sr).
  fold (swapWrists kp) in Sn, Sl, Sr.
  pose proof (finite_positions_lookup kp "nose" Hfin) as Fn.
  pose proof (finite_positions_lookup kp "leftWrist" Hfin) as Fl.
  pose proof (finite_positions_lookup kp "rightWrist" Hfin) as Fr.
  unfold finite_positions. apply forallb_forall. intros name Hin.
  unfold tracked_parts in Hin, Fn, Fl, Fr. cbn [In] in Hin, Fn, Fl, Fr.
  destruct Hin as [<-|[<-|[<-|[]]]]; rewrite ?Sn, ?Sl, ?Sr.
  - rewrite Hnose in *. apply Fn. auto.
  - destruct (kp !! "rightWrist"%string); [apply Fr; auto|reflexivity].
  - destruct (kp !! "leftWrist"%string); [apply Fl; auto|reflexivity].
Qed.

(** X12: exchanging the two wrists changes neither the reported distance
    nor the acceptance; with finite coordinates [closestHand] stays the same
    exactly when the two distances are equal (it is then "leftWrist" both
    times), and changes otherwise. *)
Theorem swapWrists_judgment kp nose j :
  kp !! "nose"%string = Some nose ->
  finite_positions kp = true ->
  decide kp = inr j ->
  exists j',
    decide (swapWrists kp) = inr j'
    /\ distance j' = distance j
    /\ accepted j' = accepted j
    /\ (closestHand j' = closestHand j <->
        (distLeft kp nose === distRight kp nose)%js = true).
Proof.
  intros Hnose Hfin Hdec.
  rewrite (decide_with_nose kp nose Hnose) in Hdec. injection Hdec as <-.
  destruct (keypoint_set_lookup (kp !! "nose"%string) (kp !! "rightWrist"%string)
              (kp !! "leftWrist"%string)) as (Sn & Sl & Sr).
  fold (swapWrists kp) in Sn, Sl, Sr. rewrite Hnose in Sn.
  pose proof (swapWrists_finite kp nose Hnose Hfin) as Hfin'.
  eexists. split; [apply (decide_with_nose _ nose Sn)|].
  cbn [distance accepted closestHand].
  destruct (distances_nonneg kp nose Hnose Hfin) as [HL HR].
  assert (EL : distLeft (swapWrists kp) nose = distRight kp nose)
    by (unfold distLeft, distRight; rewrite Sl; reflexivity).
  assert (ER : distRight (swapWrists kp) nose = distLeft kp nose)
    by (unfold distLeft, distRight; rewrite Sr; reflexivity).
  assert (Hmin : minDist (swapWrists kp) nose = minDist kp nose).
  { rewrite (minDist_cases _ nose Sn Hfin'), (minDist_cases kp nose Hnose Hfin), EL, ER.
    symmetry. apply min_pair_comm; assumption. }
  rewrite Hmin. split; [reflexivity|]. split; [reflexivity|].
  unfold closestHandOf. rewrite EL.
  rewrite (minDist_cases kp nose Hnose Hfin).
  pose proof (signed_as_not_nan _ _ HL) as HLn.
  pose proof (signed_as_not_nan _ _ HR) as HRn.
  pose proof (SFcompare_antisym (distLeft kp nose) (distRight kp nose)) as Hanti.
  pose proof (SFcompare_refl _ HLn) as HLL.
  pose proof (SFcompare_refl _ HRn) as HRR.
  destruct (SFcompare (distLeft kp nose) (distRight kp nose)) as [[]|] eqn:E;
    simpl in Hanti.
  - apply (compare_eq_nonneg _ _ HL HR) in E. rewrite <- E.
    rewrite (strict_equal_refl _ HLn). split; reflexivity.
  - unfold JS.strict_equal, SFeqb, JS.lt, SFltb. rewrite Hanti, HLL, E.
    split; discriminate.
  - unfold JS.strict_equal, SFeqb, JS.lt, SFltb. rewrite Hanti, HRR, E, Hanti.
    split; discriminate.
  - destruct HL, HR; discriminate E.
Qed.

Lemma swapWrists_judgment_witness :
  exists j',
    decide (swapWrists near_sample) = inr j'
    /\ distance j' = distance near_judgment
    /\ accepted j' = accepted near_judgment
    /\ (closestHand j' = closestHand near_judgment <->
        (distLeft near_sample (at_pixel 100 100)
         === distRight near_sample (at_pixel 100 100))%js = true).
Proof.
  apply (swapWrists_judgment near_sample (at_pixel 100 100) near_judgment);
    reflexivity.
Defined.

(** ** The reported distance (line 77) *)

Lemma sextillion_parsed :
  JS.parseFloat (JS.FS_decimal false (10 ^ 23)) = sextillion.
Proof. vm_compute. reflexivity. Qed.

Lemma reported_below_495 : reportedDistance below_495 = JS.of_Z 495.
Proof. vm_compute. reflexivity. Qed.

Lemma reported_495 : reportedDistance (JS.of_Z 495) = JS.of_Z 495.
Proof. vm_compute. reflexivity. Qed.
Lemma nearest_hundredths_scaled m e K :
  0 <= K -> 0 <= e + K ->
  JS.nearest_hundredths m e
  = (200 * Z.pos m * 2 ^ (e + K) + 2 ^ K) / 2 ^ (K + 1).
Proof.
  intros HK HeK. unfold JS.nearest_hundredths.
  assert (HpK : 0 < 2 ^ K) by (apply Z.pow_pos_nonneg; lia).
  destruct (Z.leb_spec 0 e) as [He|He].
  - rewrite Z.pow_add_r, (Z.pow_add_r 2 K 1) by lia.
    replace (200 * Z.pos m * (2 ^ e * 2 ^ K) + 2 ^ K)
      with (2 ^ K * (200 * Z.pos m * 2 ^ e + 1)) by ring.
    rewrite Z.div_mul_cancel_l by lia.
    change (2 ^ 1) with 2.
    replace (200 * Z.pos m * 2 ^ e + 1) with (1 + (100 * Z.pos m * 2 ^ e) * 2) by ring.
    rewrite Z.div_add by lia. reflexivity.
  - assert (Hp : 0 < 2 ^ (e + K)) by (apply Z.pow_pos_nonneg; lia).
    replace K with ((e + K) + - e) at 2 by lia.
    replace (K + 1) with ((e + K) + (1 - e)) by lia.
    rewrite (Z.pow_add_r 2 (e + K) (- e)), (Z.pow_add_r 2 (e + K) (1 - e)) by lia.
    replace (200 * Z.pos m * 2 ^ (e + K) + 2 ^ (e + K) * 2 ^ (- e))
      with (2 ^ (e + K) * (200 * Z.pos m + 2 ^ (- e))) by ring.
    rewrite Z.div_mul_cancel_l; [reflexivity| |lia].
    apply Z.pow_nonzero; lia.
Qed.

Lemma nearest_hundredths_nonneg m e : 0 <= JS.nearest_hundredths m e.
Proof.
  unfold JS.nearest_hundredths. destruct (Z.leb_spec 0 e).
  - apply Z.mul_nonneg_nonneg; [lia|apply Z.pow_nonneg; lia].
  - apply Z.div_pos; [|apply Z.pow_pos_nonneg; lia].
    assert (0 <= 2 ^ (- e)) by (apply Z.pow_nonneg; lia). lia.
Qed.

(** A larger value has a larger nearest multiple of 1/100. *)
Lemma nearest_hundredths_mono m1 e1 m2 e2 C :
  C <= 0 -> C <= e1 -> C <= e2 ->
  Z.pos m1 * 2 ^ (e1 - C) <= Z.pos m2 * 2 ^ (e2 - C) ->
  JS.nearest_hundredths m1 e1 <= JS.nearest_hundredths m2 e2.
Proof.
  intros HC H1 H2 Hle.
  rewrite (nearest_hundredths_scaled m1 e1 (- C)), (nearest_hundredths_scaled m2 e2 (- C))
    by lia.
  apply Z.div_le_mono; [apply Z.pow_pos_nonneg; lia|].
  replace (e1 + - C) with (e1 - C) by lia. replace (e2 + - C) with (e2 - C) by lia.
  lia.
Qed.

Lemma at_least_1e21_scaled m e K :
  0 <= K -> 0 <= e + K ->
  JS.at_least_1e21 m e = (10 ^ 21 * 2 ^ K <=? Z.pos m * 2 ^ (e + K)).
Proof.
  intros HK HeK. unfold JS.at_least_1e21.
  assert (HpK : 0 < 2 ^ K) by (apply Z.pow_pos_nonneg; lia).
  destruct (Z.leb_spec 0 e) as [He|He].
  - rewrite Z.pow_add_r by lia.
    destruct (Z.leb_spec (10 ^ 21) (Z.pos m * 2 ^ e));
      destruct (Z.leb_spec (10 ^ 21 * 2 ^ K) (Z.pos m * (2 ^ e * 2 ^ K)));
      try reflexivity; nia.
  - assert (Hp : 0 < 2 ^ (e + K)) by (apply Z.pow_pos_nonneg; lia).
    assert (Hq : 0 < 2 ^ (- e)) by (apply Z.pow_pos_nonneg; lia).
    assert (EK : 2 ^ K = 2 ^ (e + K) * 2 ^ (- e))
      by (rewrite <- Z.pow_add_r by lia; f_equal; lia).
    rewrite EK.
    pose proof (Z.div_mod (Z.pos m) (2 ^ (- e)) ltac:(lia)) as Hdiv.
    pose proof (Z.mod_pos_bound (Z.pos m) (2 ^ (- e)) Hq) as Hmod.
    destruct (Z.leb_spec (10 ^ 21) (Z.pos m / 2 ^ (- e)));
      destruct (Z.leb_spec (10 ^ 21 * (2 ^ (e + K) * 2 ^ (- e))) (Z.pos m * 2 ^ (e + K)));
      try reflexivity; nia.
Qed.

(** Below 10^21 the nearest multiple of 1/100 is at most 10^23. *)
Lemma nearest_hundredths_below_1e21 m e :
  JS.at_least_1e21 m e = false -> JS.nearest_hundredths m e <= 10 ^ 23.
Proof.
  set (K := Z.max 0 (- e)).
  rewrite (at_least_1e21_scaled m e K), (nearest_hundredths_scaled m e K) by lia.
  intros Hlt. apply Z.leb_gt in Hlt.
  assert (HpK : 0 < 2 ^ K) by (apply Z.pow_pos_nonneg; lia).
  rewrite (Z.pow_add_r 2 K 1) by lia. change (2 ^ 1) with 2.
  apply Z.lt_succ_r. apply Z.div_lt_upper_bound; [lia|].
  change (10 ^ 21) with 1000000000000000000000 in Hlt.
  change (10 ^ 23) with 100000000000000000000000.
  replace (200 * Z.pos m * 2 ^ (e + K)) with (200 * (Z.pos m * 2 ^ (e + K))) by ring.
  set (P := Z.pos m * 2 ^ (e + K)) in *. set (T := 2 ^ K) in *. lia.
Qed.

(** Two valid positive finite Numbers are ordered as their values are. *)
Lemma value_finite_le m1 e1 m2 e2 C :
  valid_binary JS.prec JS.emax (S754_finite false m1 e1) = true ->
  valid_binary JS.prec JS.emax (S754_finite false m2 e2) = true ->
  C <= e1 -> C <= e2 ->
  Z.pos m1 * 2 ^ (e1 - C) <= Z.pos m2 * 2 ^ (e2 - C) ->
  SFleb (S754_finite false m1 e1) (S754_finite false m2 e2) = true.
Proof.
  intros Hv1 Hv2 HC1 HC2 Hle.
  destruct (SFleb (S754_finite false m1 e1) (S754_finite false m2 e2)) eqn:E;
    [reflexivity|exfalso].
  assert (Hrev : SFleb (S754_finite false m2 e2) (S754_finite false m1 e1) = true).
  { apply lt_false_le; try reflexivity. unfold JS.lt, SFltb. unfold SFleb in E.
    destruct (SFcompare (S754_finite false m1 e1) (S754_finite false m2 e2)) as [[]|];
      try discriminate; reflexivity. }
  pose proof (finite_le_value m2 e2 m1 e1 C Hv2 Hv1 Hrev HC2 HC1) as Hge.
  assert (Heq : Z.pos m1 * 2 ^ (e1 - C) = Z.pos m2 * 2 ^ (e2 - C)) by lia.
  assert (Hne : ~ (e1 < e2 \/ (e1 = e2 /\ Z.pos m1 <= Z.pos m2)))
    by (intros H; apply SFleb_finite in H; congruence).
  apply SFleb_finite in Hrev.
  assert (Hp1 : 0 < 2 ^ (e1 - C)) by (apply Z.pow_pos_nonneg; lia).
  destruct Hrev as [Hlt|[He Hm]]; [|subst e2; nia].
  apply valid_finite in Hv1, Hv2.
  destruct Hv1 as (Hd1 & He1 & Hn1), Hv2 as (Hd2 & He2 & _).
  specialize (Hn1 ltac:(lia)).
  pose proof (Zdigits2_bounds (Z.pos m1) ltac:(lia)) as [Hlb1 _].
  pose proof (Zdigits2_bounds (Z.pos m2) ltac:(lia)) as [_ Hub2].
  rewrite Hn1 in Hlb1.
  assert (Hub : Z.pos m2 < 2 ^ 53).
  { apply Z.lt_le_trans with (1 := Hub2). apply Z.pow_le_mono_r; lia. }
  assert (Hp2 : 0 < 2 ^ (e2 - C)) by (apply Z.pow_pos_nonneg; lia).
  assert (Hpow : 2 ^ 53 * 2 ^ (e2 - C) <= 2 ^ (53 - 1) * 2 ^ (e1 - C)).
  { rewrite <- !Z.pow_add_r by lia. apply Z.pow_le_mono_r; lia. }
  nia.
Qed.

Lemma div_by_100_mono n1 n2 :
  Z.pos n1 <= Z.pos n2 ->
  SFleb (JS.div (S754_finite false n1 0) (S754_finite false 100 0))
        (JS.div (S754_finite false n2 0) (S754_finite false 100 0)) = true.
Proof.
  intros Hle.
  destruct (div_positive_spec n1 0 100 0) as (q1 & e1' & l1 & -> & Hr1 & He1 & Hl1).
  destruct (div_positive_spec n2 0 100 0) as (q2 & e2' & l2 & -> & Hr2 & He2 & Hl2).
  set (B := Z.min e1' e2').
  apply (binary_round_aux_mono q1 e1' l1 q2 e2' l2
           (Z.pos n1 * 2 ^ (0 - 0 - e1')) 100
           (Z.pos n2 * 2 ^ (0 - 0 - e2')) 100 B);
    try assumption; try lia.
  assert (E1 : 2 ^ (0 - 0 - e1') * 2 ^ (e1' - B) = 2 ^ (- B))
    by (rewrite <- Z.pow_add_r by lia; f_equal; lia).
  assert (E2 : 2 ^ (0 - 0 - e2') * 2 ^ (e2' - B) = 2 ^ (- B))
    by (rewrite <- Z.pow_add_r by lia; f_equal; lia).
  assert (Hp : 0 < 2 ^ (- B)) by (apply Z.pow_pos_nonneg; lia).
  replace (Z.pos n1 * 2 ^ (0 - 0 - e1') * 100 * 2 ^ (e1' - B))
    with (Z.pos n1 * 100 * (2 ^ (0 - 0 - e1') * 2 ^ (e1' - B))) by ring.
  replace (Z.pos n2 * 2 ^ (0 - 0 - e2') * 100 * 2 ^ (e2' - B))
    with (Z.pos n2 * 100 * (2 ^ (0 - 0 - e2') * 2 ^ (e2' - B))) by ring.
  rewrite E1, E2. nia.
Qed.

Lemma parse_decimal_nonneg n :
  0 <= n -> signed_as false (JS.parseFloat (JS.FS_decimal false n)).
Proof.
  destruct n as [|p|p]; intros Hn; try lia; cbn [JS.parseFloat].
  - constructor.
  - apply (div_nonneg (S754_finite false p 0) 100 0). constructor.
Qed.

(** Reading back a larger decimal gives a larger Number. *)
Lemma parse_decimal_mono n1 n2 :
  0 <= n1 <= n2 ->
  SFleb (JS.parseFloat (JS.FS_decimal false n1))
        (JS.parseFloat (JS.FS_decimal false n2)) = true.
Proof.
  intros [H1 H2].
  destruct n1 as [|p1|p1]; try lia.
  - apply zero_le_signed_false, parse_decimal_nonneg. lia.
  - destruct n2 as [|p2|p2]; try lia.
    apply div_by_100_mono. exact H2.
Qed.

Lemma reportedDistance_nonneg d :
  signed_as false d -> signed_as false (reportedDistance d).
Proof.
  intros [| |m e]; unfold reportedDistance; cbn [JS.toFixed2 JS.parseFloat];
    try constructor.
  destruct (JS.at_least_1e21 m e); cbn [JS.parseFloat]; [constructor|].
  apply parse_decimal_nonneg, nearest_hundredths_nonneg.
Qed.

Lemma sextillion_valid : valid_binary JS.prec JS.emax sextillion = true.
Proof. reflexivity. Qed.

Lemma reportedDistance_le d1 d2 :
  valid_binary JS.prec JS.emax d1 = true -> valid_binary JS.prec JS.emax d2 = true ->
  signed_as false d1 -> signed_as false d2 ->
  SFleb d1 d2 = true ->
  SFleb (reportedDistance d1) (reportedDistance d2) = true.
Proof.
  intros Hv1 Hv2 Hs1 Hs2 Hle.
  pose proof (reportedDistance_nonneg d2 Hs2) as Hr2.
  destruct Hs1 as [| |m1 e1].
  - apply zero_le_signed_false. exact Hr2.
  - rewrite (Infinity_le_signed_false d2 Hs2 Hle). reflexivity.
  - destruct Hs2 as [| |m2 e2].
    + discriminate Hle.
    + apply signed_false_le_Infinity, reportedDistance_nonneg. constructor.
    + set (C := Z.min 0 (Z.min e1 e2)).
      pose proof (finite_le_value m1 e1 m2 e2 C Hv1 Hv2 Hle ltac:(lia) ltac:(lia))
        as Hval.
      unfold reportedDistance in *. cbn [JS.toFixed2] in *.
      rewrite (at_least_1e21_scaled m1 e1 (- C)), (at_least_1e21_scaled m2 e2 (- C))
        in * by lia.
      replace (e1 + - C) with (e1 - C) in * by lia.
      replace (e2 + - C) with (e2 - C) in * by lia.
      destruct (Z.leb_spec (10 ^ 21 * 2 ^ (- C)) (Z.pos m1 * 2 ^ (e1 - C))) as [Hb1|Hb1];
        destruct (Z.leb_spec (10 ^ 21 * 2 ^ (- C)) (Z.pos m2 * 2 ^ (e2 - C))) as [Hb2|Hb2];
        cbn [JS.parseFloat].
      * exact Hle.
      * lia.
      * apply (SFleb_trans_nonneg _ sextillion).
        -- apply parse_decimal_nonneg, nearest_hundredths_nonneg.
        -- constructor.
        -- constructor.
        -- rewrite <- sextillion_parsed. apply parse_decimal_mono.
           split; [apply nearest_hundredths_nonneg|].
           apply nearest_hundredths_below_1e21.
           rewrite (at_least_1e21_scaled m1 e1 (- C)) by lia.
           apply Z.leb_gt. replace (e1 + - C) with (e1 - C) by lia. exact Hb1.
        -- apply (value_finite_le _ _ _ _ C); try assumption; try lia;
             [apply sextillion_valid|].
           etransitivity; [|exact Hb2].
           replace (17 - C) with (17 + - C) by lia. rewrite Z.pow_add_r by lia.
           apply Z.eq_le_incl. change (10 ^ 21) with (7629394531250000 * 2 ^ 17). ring.
      * apply parse_decimal_mono. split; [apply nearest_hundredths_nonneg|].
        apply (nearest_hundredths_mono m1 e1 m2 e2 C); lia.
Qed.

Lemma reportedDistance_valid d :
  valid_binary JS.prec JS.emax d = true ->
  valid_binary JS.prec JS.emax (reportedDistance d) = true.
Proof.
  intros Hv. destruct d as [s|s| |s m e]; try reflexivity.
  unfold reportedDistance. cbn [JS.toFixed2].
  destruct (JS.at_least_1e21 m e); cbn [JS.parseFloat]; [exact Hv|].
  destruct (JS.nearest_hundredths m e) as [|n|n]; try reflexivity.
  apply (div_valid (S754_finite s n 0) 100 0).
Qed.

(** X13: printing with two decimals and reading back keeps the order of
    distances: of two valid non-negative Numbers the smaller one is reported
    as the smaller or the same Number, and what is reported is again a valid
    non-negative Number. *)
Theorem reportedDistance_mono d1 d2 :
  valid_binary JS.prec JS.emax d1 = true -> valid_binary JS.prec JS.emax d2 = true ->
  signed_as false d1 -> signed_as false d2 ->
  SFleb d1 d2 = true ->
  SFleb (reportedDistance d1) (reportedDistance d2) = true
  /\ signed_as false (reportedDistance d1)
  /\ valid_binary JS.prec JS.emax (reportedDistance d1) = true.
Proof.
  intros Hv1 Hv2 Hs1 Hs2 Hle.
  split; [apply reportedDistance_le; assumption|].
  split; [apply reportedDistance_nonneg; exact Hs1|].
  apply reportedDistance_valid. exact Hv1.
Qed.

Lemma reportedDistance_mono_witness :
  SFleb (reportedDistance (JS.of_Z 20)) (reportedDistance (JS.of_Z 495)) = true
  /\ signed_as false (reportedDistance (JS.of_Z 20))
  /\ valid_binary JS.prec JS.emax (reportedDistance (JS.of_Z 20)) = true.
Proof.
  apply (reportedDistance_mono (JS.of_Z 20) (JS.of_Z 495));
    first [reflexivity | vm_compute; constructor].
Defined.

Lemma beyond_below_495 d :
  signed_as false d -> SFleb d below_495 = false -> SFleb (JS.of_Z 495) d = true.
Proof.
  intros [| |m e] Hgt; try discriminate; try reflexivity.
  assert (Hne : ~ (e < -44 \/ (e = -44 /\ Z.pos m <= 8708132091985919)))
    by (intros H; apply (SFleb_finite m e 8708132091985919 (-44)) in H;
        unfold below_495 in Hgt; congruence).
  change (JS.of_Z 495) with (S754_finite false 8708132091985920 (-44)).
  apply SFleb_finite. lia.
Qed.

(** 494.99999999999994 is accepted and 495 is rejected, and both are
    reported as 495. *)
Example reported_495_is_ambiguous :
  reportedDistance below_495 = reportedDistance (JS.of_Z 495)
  /\ acceptedOf below_495 = true
  /\ acceptedOf (JS.of_Z 495) = false.
Proof. repeat split; vm_compute; reflexivity. Qed.

(** X14: the reported distance tells accepted from rejected except at 495
    itself: an accepted Judgment reports at most 495, and a rejected one
    whose minimum is not NaN reports at least 495. *)
Theorem reported_distance_separates kp nose j :
  kp !! "nose"%string = Some nose ->
  decide kp = inr j ->
  (accepted j = true -> SFleb (distance j) (JS.of_Z 495) = true)
  /\ (accepted j = false -> not_nan (minDist kp nose) ->
      SFleb (JS.of_Z 495) (distance j) = true).
Proof.
  intros Hnose Hdec.
  rewrite (decide_with_nose kp nose Hnose) in Hdec. injection Hdec as <-.
  cbn [accepted distance].
  pose proof (minDist_valid kp nose) as Hv.
  rewrite (acceptedOf_threshold _ Hv).
  split.
  - intros Hle.
    assert (Hnn : not_nan (minDist kp nose))
      by (destruct (minDist kp nose); try reflexivity; discriminate Hle).
    destruct (minDist_not_nan kp nose Hnn) as (HL & HR & Hmin).
    assert (Hs : signed_as false (minDist kp nose))
      by (rewrite Hmin; destruct (JS.lt _ _); assumption).
    rewrite <- reported_below_495.
    apply reportedDistance_le; try assumption; try reflexivity. constructor.
  - intros Hgt Hnn.
    destruct (minDist_not_nan kp nose Hnn) as (HL & HR & Hmin).
    assert (Hs : signed_as false (minDist kp nose))
      by (rewrite Hmin; destruct (JS.lt _ _); assumption).
    rewrite <- reported_495.
    apply reportedDistance_le; try assumption; try reflexivity.
    + vm_compute. constructor.
    + apply beyond_below_495; assumption.
Qed.

Lemma reported_distance_separates_witness :
  (accepted far_judgment = true -> SFleb (distance far_judgment) (JS.of_Z 495) = true)
  /\ (accepted far_judgment = false ->
      not_nan (minDist far_sample (at_pixel 0 0)) ->
      SFleb (JS.of_Z 495) (distance far_judgment) = true).
Proof.
  apply (reported_distance_separates far_sample (at_pixel 0 0) far_judgment);
    reflexivity.
Defined.

Lemma closestHandOf_names m d :
  closestHandOf m d = "leftWrist"%string \/ closestHandOf m d = "rightWrist"%string.
Proof. unfold closestHandOf. destruct (m === d)%js; auto. Qed.

Lemma reportedDistance_nan_or_nonneg d :
  nan_or_nonneg d -> nan_or_nonneg (reportedDistance d).
Proof.
  intros [->|Hs]; [left; reflexivity|right; apply reportedDistance_nonneg, Hs].
Qed.

Lemma minDist_nan_or_nonneg kp nose : nan_or_nonneg (minDist kp nose).
Proof.
  destruct (JS.is_nan (minDist kp nose)) eqn:E.
  - left. destruct (minDist kp nose); try discriminate E. reflexivity.
  - right. destruct (minDist_not_nan kp nose E) as (HL & HR & ->).
    destruct (JS.lt _ _); assumption.
Qed.

(** X15: every Judgment is well formed, whatever the coordinates:
    [closestHand] is one of the two wrist names (also when no wrist was
    detected), the reported distance is a valid double that is NaN or not
    negative, NaN exactly when the minimum is, and finite whenever the pose
    is accepted. *)
Theorem judgment_wellformed kp nose j :
  kp !! "nose"%string = Some nose ->
  decide kp = inr j ->
  (closestHand j = "leftWrist"%string \/ closestHand j = "rightWrist"%string)
  /\ nan_or_nonneg (distance j)
  /\ valid_binary JS.prec JS.emax (distance j) = true
  /\ (distance j = S754_nan <-> minDist kp nose = S754_nan)
  /\ (accepted j = true -> is_finite (distance j) = true).
Proof.
  intros Hnose Hdec.
  rewrite (decide_with_nose kp nose Hnose) in Hdec. injection Hdec as <-.
  cbn [closestHand distance accepted].
  pose proof (minDist_nan_or_nonneg kp nose) as Hmin.
  pose proof (minDist_valid kp nose) as Hv.
  split; [apply closestHandOf_names|].
  split; [apply reportedDistance_nan_or_nonneg, Hmin|].
  split; [apply reportedDistance_valid, Hv|].
  split.
  - split; [|intros ->; reflexivity].
    destruct Hmin as [->|Hs]; [reflexivity|].
    intros E. pose proof (reportedDistance_nonneg _ Hs) as Hr.
    rewrite E in Hr. inversion Hr.
  - rewrite (acceptedOf_threshold _ Hv). intros Hle.
    destruct Hmin as [E|Hs]; [rewrite E in Hle; discriminate Hle|].
    pose proof (reportedDistance_nonneg _ Hs) as Hr.
    assert (H495 : SFleb (reportedDistance (minDist kp nose)) (JS.of_Z 495) = true).
    { rewrite <- reported_below_495.
      apply reportedDistance_le; try assumption; try reflexivity. constructor. }
    destruct Hr; try reflexivity. discriminate H495.
Qed.

Lemma judgment_wellformed_witness :
  (closestHand near_judgment = "leftWrist"%string
   \/ closestHand near_judgment = "rightWrist"%string)
  /\ nan_or_nonneg (distance near_judgment)
  /\ valid_binary JS.prec JS.emax (distance near_judgment) = true
  /\ (distance near_judgment = S754_nan
      <-> minDist near_sample (at_pixel 100 100) = S754_nan)
  /\ (accepted near_judgment = true -> is_finite (distance near_judgment) = true).
Proof.
  apply (judgment_wellformed near_sample (at_pixel 100 100) near_judgment);
    reflexivity.
Defined.

(** ** The handler (lines 33-86) *)

Lemma respond_status outcome :
  (status (respond outcome) = 200
   /\ exists j, outcome = inr j /\ body (respond outcome) = JudgmentBody j)
  \/ (status (respond outcome) = 400 /\ outcome = inl MissingAnchorError
      /\ body (respond outcome) = ErrorBody "Nose not detected").
Proof.
  destruct outcome as [[]|j]; [right|left]; repeat split. exists j. auto.
Qed.

(** X16: once the pose is estimated, the status says whether the model's
    output names a nose: 200 with a Judgment when some keypoint has the part
    "nose", 400 with "Nose not detected" when none has; wrists play no part
    in it. *)
Theorem nose_keypoint_decides_status keypoints :
  (status (respond (decide (collect keypoints))) = 200
   <-> exists point, In point keypoints /\ part point = "nose"%string)
  /\ (status (respond (decide (collect keypoints))) = 400
      <-> forall point, In point keypoints -> part point <> "nose"%string)
  /\ (status (respond (decide (collect keypoints))) = 400 ->
      body (respond (decide (collect keypoints))) = ErrorBody "Nose not detected")
  /\ (status (respond (decide (collect keypoints))) = 200 ->
      exists j, body (respond (decide (collect keypoints))) = JudgmentBody j).
Proof.
  assert (Hlookup : collect keypoints !! "nose"%string
                    = last_named "nose" keypoints)
    by (rewrite collect_lookup_if; reflexivity).
  pose proof (last_named_None "nose" keypoints) as Hnone.
  unfold decide. rewrite Hlookup.
  destruct (last_named "nose" keypoints) as [nose|] eqn:E; cbn [respond status body].
  - destruct (last_named_In "nose" keypoints nose E) as (point & Hin & Hpart & _).
    split; [split; [intros _; exists point; auto|reflexivity]|].
    split; [split; [discriminate|]|split; [discriminate|intros _; eexists; reflexivity]].
    intros Hall. destruct (Hall point Hin Hpart).
  - pose proof (proj1 Hnone eq_refl) as Hall.
    split; [split; [discriminate|intros (point & Hin & Hpart); destruct (Hall point Hin Hpart)]|].
    split; [split; [intros _; exact Hall|reflexivity]|].
    split; [reflexivity|discriminate].
Qed.

Section Answers.

Context {Buffer Image Canvas Net Exn : Type}.
Variable modelPromise : Exn + Net.
Variable loadImage : Buffer -> Exn + Image.
Variable drawOnCanvas : Image -> Exn + Canvas.
Variable estimateSinglePose : Net -> Canvas -> Exn + list Keypoint.

Local Abbreviation handle :=
  (pose_handler modelPromise loadImage drawOnCanvas estimateSinglePose).
Local Abbreviation failure :=
  {| status := 500; body := ErrorBody "Pose estimation failed" |}.

(** The six ways through the handler. *)
Lemma pose_handler_cases (file : option Buffer) :
  (file = None
   /\ forall log, handle file log
      = (inr {| status := 400; body := ErrorBody "No image uploaded" |}, log))
  \/ (exists buffer e,
        file = Some buffer /\ modelPromise = inl e
        /\ forall log, handle file log
           = (inr failure, log ++ AwaitModel :: ConsoleError e :: nil))
  \/ (exists buffer net e,
        file = Some buffer /\ modelPromise = inr net /\ loadImage buffer = inl e
        /\ forall log, handle file log
           = (inr failure,
              log ++ AwaitModel :: LoadImage buffer :: ConsoleError e :: nil))
  \/ (exists buffer net image e,
        file = Some buffer /\ modelPromise = inr net
        /\ loadImage buffer = inr image /\ drawOnCanvas image = inl e
        /\ forall log, handle file log
           = (inr failure,
              log ++ AwaitModel :: LoadImage buffer :: DrawCanvas image
                  :: ConsoleError e :: nil))
  \/ (exists buffer net image canvas e,
        file = Some buffer /\ modelPromise = inr net
        /\ loadImage buffer = inr image /\ drawOnCanvas image = inr canvas
        /\ estimateSinglePose net canvas = inl e
        /\ forall log, handle file log
           = (inr failure,
              log ++ AwaitModel :: LoadImage buffer :: DrawCanvas image
                  :: EstimatePose net canvas :: ConsoleError e :: nil))
  \/ (exists buffer net image canvas keypoints,
        file = Some buffer /\ modelPromise = inr net
        /\ loadImage buffer = inr image /\ drawOnCanvas image = inr canvas
        /\ estimateSinglePose net canvas = inr keypoints
        /\ forall log, handle file log
           = (inr (respond (decide (collect keypoints))),
              log ++ AwaitModel :: LoadImage buffer :: DrawCanvas image
                  :: EstimatePose net canvas :: nil)).
Proof.
  destruct file as [buffer|]; [right|left; split; reflexivity].
  unfold pose_handler, try_catch, bind, call, judge, ret.
  destruct modelPromise as [e|net] eqn:Hmodel.
  { left. exists buffer, e. repeat split. intros log. simpl.
    rewrite <- !app_assoc. reflexivity. }
  right. destruct (loadImage buffer) as [e|image] eqn:Himage.
  { left. exists buffer, net, e. repeat split; try assumption; try reflexivity. intros log. simpl.
    rewrite <- !app_assoc. reflexivity. }
  right. destruct (drawOnCanvas image) as [e|canvas] eqn:Hcanvas.
  { left. exists buffer, net, image, e. repeat split; try assumption; try reflexivity.
    intros log. simpl. rewrite <- !app_assoc. reflexivity. }
  right. destruct (estimateSinglePose net canvas) as [e|keypoints] eqn:Hpose.
  { left. exists buffer, net, image, canvas, e. repeat split; try assumption; try reflexivity.
    intros log. simpl. rewrite <- !app_assoc. reflexivity. }
  right. exists buffer, net, image, canvas, keypoints. repeat split; try assumption; try reflexivity.
  intros log. simpl. rewrite <- !app_assoc. reflexivity.
Qed.

(** X17: the handler never throws: whatever the collaborators do it
    answers, with status 200, 400 or 500; the answer and the calls it makes
    do not depend on the log it starts from, which it only extends; and the
    body holds a Judgment exactly when the status is 200. *)
Theorem pose_handler_always_answers (file : option Buffer) :
  exists response calls,
    (forall log,
        pose_handler modelPromise loadImage drawOnCanvas estimateSinglePose file log
        = (inr response, log ++ calls))
    /\ (status response = 200 \/ status response = 400 \/ status response = 500)
    /\ (status response = 200 <-> exists j, body response = JudgmentBody j).
Proof.
  destruct (pose_handler_cases file)
    as [(_ & H)|[(b & e & _ & _ & H)|[(b & n & e & _ & _ & _ & H)
       |[(b & n & i & e & _ & _ & _ & _ & H)
       |[(b & n & i & c & e & _ & _ & _ & _ & _ & H)
       |(b & n & i & c & ks & _ & _ & _ & _ & _ & H)]]]]].
  - exists {| status := 400; body := ErrorBody "No image uploaded" |}, nil.
    split; [intros log; rewrite app_nil_r; apply H|].
    split; [auto|]. split; [discriminate|intros [j Hj]; discriminate Hj].
  - eexists _, _. split; [exact H|]. split; [auto|].
    split; [discriminate|intros [j Hj]; discriminate Hj].
  - eexists _, _. split; [exact H|]. split; [auto|].
    split; [discriminate|intros [j Hj]; discriminate Hj].
  - eexists _, _. split; [exact H|]. split; [auto|].
    split; [discriminate|intros [j Hj]; discriminate Hj].
  - eexists _, _. split; [exact H|]. split; [auto|].
    split; [discriminate|intros [j Hj]; discriminate Hj].
  - eexists _, _. split; [exact H|].
    destruct (respond_status (decide (collect ks)))
      as [(Hs & j & _ & Hb)|(Hs & _ & Hb)]; rewrite Hs, Hb.
    + split; [auto|]. split; [intros _; exists j; reflexivity|reflexivity].
    + split; [auto|]. split; [discriminate|intros [j Hj]; discriminate Hj].
Qed.

(** X18: the answer is status 500 exactly when something was written to
    the console; the body is then the fixed "Pose estimation failed"; and
    what is written is an error one of the collaborators threw, written once
    and as the last call. *)
Theorem server_error_iff_console_error (file : option Buffer) response calls :
  pose_handler modelPromise loadImage drawOnCanvas estimateSinglePose file nil
  = (inr response, calls) ->
  (status response = 500 <-> exists e, In (ConsoleError e) calls)
  /\ (status response = 500 -> body response = ErrorBody "Pose estimation failed")
  /\ forall e, In (ConsoleError e) calls ->
       (exists before, calls = before ++ ConsoleError e :: nil
                       /\ forall e', ~ In (ConsoleError e') before)
       /\ (modelPromise = inl e
           \/ (exists buffer, file = Some buffer /\ loadImage buffer = inl e)
           \/ (exists image, drawOnCanvas image = inl e)
           \/ (exists net canvas, estimateSinglePose net canvas = inl e)).
Proof.
  intros Hrun.
  destruct (pose_handler_cases file)
    as [(_ & H)|[(b & e & Hf & Hm & H)|[(b & n & e & Hf & Hm & Hi & H)
       |[(b & n & i & e & Hf & Hm & Hi & Hc & H)
       |[(b & n & i & c & e & Hf & Hm & Hi & Hc & Hp & H)
       |(b & n & i & c & ks & Hf & Hm & Hi & Hc & Hp & H)]]]]];
    rewrite (H nil) in Hrun; injection Hrun as <- <-; cbn [app status body].
  - split; [split; [discriminate|intros [e []]]|].
    split; [discriminate|intros e []].
  - split; [split; [intros _; exists e; simpl; tauto|reflexivity]|].
    split; [reflexivity|].
    intros e' [Hin|[Hin|[]]]; [discriminate Hin|injection Hin as <-].
    split; [|auto].
    exists (AwaitModel :: nil). split; [reflexivity|].
    intros e' [Hin|[]]; discriminate Hin.
  - split; [split; [intros _; exists e; simpl; tauto|reflexivity]|].
    split; [reflexivity|].
    intros e' [Hin|[Hin|[Hin|[]]]]; try discriminate Hin. injection Hin as <-.
    split; [|right; left; exists b; auto].
    exists (AwaitModel :: LoadImage b :: nil). split; [reflexivity|].
    intros e' [Hin|[Hin|[]]]; discriminate Hin.
  - split; [split; [intros _; exists e; simpl; tauto|reflexivity]|].
    split; [reflexivity|].
    intros e' [Hin|[Hin|[Hin|[Hin|[]]]]]; try discriminate Hin. injection Hin as <-.
    split; [|right; right; left; exists i; auto].
    exists (AwaitModel :: LoadImage b :: DrawCanvas i :: nil). split; [reflexivity|].
    intros e' [Hin|[Hin|[Hin|[]]]]; discriminate Hin.
  - split; [split; [intros _; exists e; simpl; tauto|reflexivity]|].
    split; [reflexivity|].
    intros e' [Hin|[Hin|[Hin|[Hin|[Hin|[]]]]]]; try discriminate Hin.
    injection Hin as <-.
    split; [|right; right; right; exists n, c; auto].
    exists (AwaitModel :: LoadImage b :: DrawCanvas i :: EstimatePose n c :: nil).
    split; [reflexivity|].
    intros e' [Hin|[Hin|[Hin|[Hin|[]]]]]; discriminate Hin.
  - assert (Hs : status (respond (decide (collect ks))) <> 500)
      by (destruct (decide (collect ks)) as [[]|j]; discriminate).
    assert (Hno : forall e : Exn, ~ In (ConsoleError e)
                    (AwaitModel :: LoadImage b :: DrawCanvas i
                     :: EstimatePose n c :: nil))
      by (intros e [Hin|[Hin|[Hin|[Hin|[]]]]]; discriminate Hin).
    split; [split; [intros E; contradiction|intros [e He]; destruct (Hno e He)]|].
    split; [intros E; contradiction|intros e He; destruct (Hno e He)].
Qed.

(** X19: the pose is estimated only with the network the model promise
    gave and with the canvas drawn from the decoded upload, after those
    three calls and in that order; nothing follows the estimate but the
    console line for the error it threw. *)
Theorem estimate_needs_model_and_canvas (file : option Buffer) net canvas :
  In (EstimatePose net canvas)
     (snd (pose_handler modelPromise loadImage drawOnCanvas estimateSinglePose
             file nil)) ->
  modelPromise = inr net
  /\ exists buffer image after,
       file = Some buffer /\ loadImage buffer = inr image
       /\ drawOnCanvas image = inr canvas
       /\ snd (pose_handler modelPromise loadImage drawOnCanvas estimateSinglePose
                 file nil)
          = AwaitModel :: LoadImage buffer :: DrawCanvas image
            :: EstimatePose net canvas :: after
       /\ (after = nil
           \/ exists e, estimateSinglePose net canvas = inl e
                        /\ after = ConsoleError e :: nil).
Proof.
  destruct (pose_handler_cases file)
    as [(_ & H)|[(b & e & Hf & Hm & H)|[(b & n & e & Hf & Hm & Hi & H)
       |[(b & n & i & e & Hf & Hm & Hi & Hc & H)
       |[(b & n & i & c & e & Hf & Hm & Hi & Hc & Hp & H)
       |(b & n & i & c & ks & Hf & Hm & Hi & Hc & Hp & H)]]]]];
    rewrite (H nil); cbn [snd app].
  - intros [].
  - intros [Hin|[Hin|[]]]; discriminate Hin.
  - intros [Hin|[Hin|[Hin|[]]]]; discriminate Hin.
  - intros [Hin|[Hin|[Hin|[Hin|[]]]]]; discriminate Hin.
  - intros [Hin|[Hin|[Hin|[Hin|[Hin|[]]]]]]; try discriminate Hin.
    injection Hin as <- <-. split; [exact Hm|].
    exists b, i, (ConsoleError e :: nil). repeat split; try assumption.
    right. exists e. auto.
  - intros [Hin|[Hin|[Hin|[Hin|[]]]]]; try discriminate Hin.
    injection Hin as <- <-. split; [exact Hm|].
    exists b, i, nil. repeat split; try assumption. left. reflexivity.
Qed.

(** X20: from the answer back to the model's output: when the handler
    answers with an accepted Judgment, the pose was estimated, and its
    keypoints hold a nose and a wrist of the name in [closestHand] that lie
    within 494.99999999999994 of each other. *)
Theorem accepted_answer_has_close_wrist (file : option Buffer) log j log' :
  pose_handler modelPromise loadImage drawOnCanvas estimateSinglePose file log
  = (inr {| status := 200; body := JudgmentBody j |}, log') ->
  accepted j = true ->
  exists net canvas keypoints nosePoint wristPoint,
    estimateSinglePose net canvas = inr keypoints
    /\ In (EstimatePose net canvas) log'
    /\ In nosePoint keypoints /\ part nosePoint = "nose"%string
    /\ In wristPoint keypoints /\ part wristPoint = closestHand j
    /\ (closestHand j = "leftWrist"%string \/ closestHand j = "rightWrist"%string)
    /\ SFleb (euclideanDistance (position wristPoint) (position nosePoint))
             below_495 = true.
Proof.
  intros Hrun Hacc.
  destruct (pose_handler_cases file)
    as [(_ & H)|[(b & e & _ & _ & H)|[(b & n & e & _ & _ & _ & H)
       |[(b & n & i & e & _ & _ & _ & _ & H)
       |[(b & n & i & c & e & _ & _ & _ & _ & _ & H)
       |(b & n & i & c & ks & _ & _ & _ & _ & Hp & H)]]]]];
    rewrite (H log) in Hrun; try discriminate Hrun.
  injection Hrun as Hresp <-.
  unfold decide in Hresp.
  destruct (collect ks !! "nose"%string) as [nose|] eqn:Hnose; [|discriminate Hresp].
  injection Hresp as <-. cbn [accepted closestHand] in *.
  destruct (accepted_minDist_wrist (collect ks) nose Hacc) as (w & Hw & Hd & Hle).
  rewrite collect_lookup_if in Hnose, Hw.
  destruct (includes tracked_parts "nose"); [|discriminate Hnose].
  destruct (includes tracked_parts
              (closestHandOf (minDist (collect ks) nose) (distLeft (collect ks) nose)));
    [|discriminate Hw].
  destruct (last_named_In _ _ _ Hnose) as (np & Hnin & Hnpart & Hnpos).
  destruct (last_named_In _ _ _ Hw) as (wp & Hwin & Hwpart & Hwpos).
  exists n, c, ks, np, wp.
  split; [exact Hp|]. split; [apply in_or_app; right; simpl; tauto|].
  split; [exact Hnin|]. split; [exact Hnpart|].
  split; [exact Hwin|]. split; [exact Hwpart|].
  split.
  - unfold closestHandOf. destruct (_ === _)%js; auto.
  - rewrite Hwpos, Hnpos, Hd. exact Hle.
Qed.

End Answers.

Lemma server_error_iff_console_error_witness :
  (status {| status := 500; body := ErrorBody "Pose estimation failed" |} = 500
   <-> exists e, In (ConsoleError e) undecoded_calls)
  /\ (status {| status := 500; body := ErrorBody "Pose estimation failed" |} = 500 ->
      body {| status := 500; body := ErrorBody "Pose estimation failed" |}
      = ErrorBody "Pose estimation failed")
  /\ forall e, In (ConsoleError e) undecoded_calls ->
       (exists before, undecoded_calls = before ++ ConsoleError e :: nil
                       /\ forall e', ~ In (ConsoleError e') before)
       /\ (sample_model = inl e
           \/ (exists buffer, Some tt = Some buffer /\ sample_decoder false buffer = inl e)
           \/ (exists image, sample_canvas image = inl e)
           \/ (exists net canvas, sample_estimator net canvas = inl e)).
Proof.
  apply (server_error_iff_console_error sample_model (sample_decoder false)
           sample_canvas sample_estimator (Some tt)).
  reflexivity.
Defined.

Lemma estimate_needs_model_and_canvas_witness :
  sample_model = inr tt
  /\ exists buffer image after,
       Some tt = Some buffer /\ sample_decoder true buffer = inr image
       /\ sample_canvas image = inr tt
       /\ snd (pose_handler sample_model (sample_decoder true) sample_canvas
                 sample_estimator (Some tt) nil)
          = AwaitModel :: LoadImage buffer :: DrawCanvas image
            :: EstimatePose tt tt :: after
       /\ (after = nil
           \/ exists e, sample_estimator tt tt = inl e
                        /\ after = ConsoleError e :: nil).
Proof.
  apply (estimate_needs_model_and_canvas sample_model (sample_decoder true)
           sample_canvas sample_estimator (Some tt) tt tt).
  simpl. tauto.
Defined.

Lemma accepted_answer_has_close_wrist_witness :
  exists net canvas keypoints nosePoint wristPoint,
    sample_estimator net canvas = inr keypoints
    /\ In (EstimatePose net canvas) estimated_calls
    /\ In nosePoint keypoints /\ part nosePoint = "nose"%string
    /\ In wristPoint keypoints /\ part wristPoint = closestHand near_judgment
    /\ (closestHand near_judgment = "leftWrist"%string
        \/ closestHand near_judgment = "rightWrist"%string)
    /\ SFleb (euclideanDistance (position wristPoint) (position nosePoint))
             below_495 = true.
Proof.
  apply (accepted_answer_has_close_wrist sample_model (sample_decoder true)
           sample_canvas sample_estimator (Some tt) nil near_judgment estimated_calls);
    reflexivity.
Defined.
